(** * SOL carton size helper: arrangement solver, number helpers, packing cascade

    A shallow embedding of
      - [src/core/arrangement.ts]  (factor triples and the minimum-volume search),
      - [src/utils/numbers.ts]     (buffer conversion, rounding, number extraction),
      - [src/core/calculator.ts]   (the per-record packing cascade), in the two
        revisions of [runCalculation] that the repository carries,
      - [src/utils/strings.ts], [src/utils/field.ts], [src/config/fields.ts]
        and the pure part of [src/core/context.ts] (field lookup by name, the
        field map, the choice among the candidate tables),
    together with the properties of the written specification.

    JavaScript numbers are IEEE 754 binary64 values: they are embedded as the
    primitive [float] of the prover, whose operations are the same binary64
    operations (round to nearest, ties to even).  Integer-valued quantities and
    counts, on which the source only performs exact integer arithmetic
    ([%], exact [/], [+= 1]), are embedded in [Z]. *)

From Stdlib Require Import ZArith Floats Lia Bool.
From stdpp Require Import base decidable option list gmap strings.

Set Warnings "-inexact-float,-register-all".
Open Scope Z_scope.

(** ** JavaScript number built-ins *)

Module JS.

(** The binary64 value nearest to an integer (exact below 2^53). *)
Definition of_Z (z : Z) : float :=
  SF2Prim (binary_normalize prec emax z 0 false).

(** [Number.isFinite] on a value that already is a number. *)
Definition Number_isFinite (x : float) : bool := is_finite x.

(** [Number.EPSILON] = 2^-52. *)
Definition Number_EPSILON : float := 0x1p-52%float.

(** The exact value of a finite, nonzero binary64 number is [v / d] with
    [d] a power of two; [None] for zeros, infinities and NaN. *)
Definition fraction (x : float) : option (Z * Z) :=
  match Prim2SF x with
  | S754_finite s m e =>
      let n := if s then Z.neg m else Z.pos m in
      if 0 <=? e then Some (n * 2 ^ e, 1) else Some (n, 2 ^ (- e))
  | _ => None
  end.

(** An integer [q] as the number the built-in returns for a negative or
    positive argument: a zero result keeps the sign of the argument. *)
Definition signed_of_Z (x : float) (q : Z) : float :=
  if q =? 0 then (if get_sign x then neg_zero else zero) else of_Z q.

(** [Math.round]: the nearest integer, ties towards +Infinity. *)
Definition Math_round (x : float) : float :=
  match fraction x with
  | Some (v, d) => if d =? 1 then x else signed_of_Z x ((2 * v + d) `div` (2 * d))
  | None => x
  end.

(** [Math.trunc]: the integer part, towards zero. *)
Definition Math_trunc (x : float) : float :=
  match fraction x with
  | Some (v, d) => if d =? 1 then x else signed_of_Z x (v `quot` d)
  | None => x
  end.

(** [Number.isInteger]. *)
Definition Number_isInteger (x : float) : bool :=
  match Prim2SF x with
  | S754_zero _ => true
  | S754_finite _ m e => (0 <=? e) || (Z.pos m `mod` 2 ^ (- e) =? 0)
  | _ => false
  end.

(** The integer a number stands for (its integer part; 0 where there is
    none).  Used where the source hands an integer-valued number to integer
    arithmetic. *)
Definition to_Z (x : float) : Z :=
  match fraction x with
  | Some (v, d) => v `quot` d
  | None => 0
  end.

(** [10 ** n] for a small natural exponent (exact up to 10^22). *)
Definition pow10 (n : nat) : float := of_Z (10 ^ Z.of_nat n).

(** The truthiness of a number: [0], [-0] and [NaN] are falsy. *)
Definition truthy (x : float) : bool := negb (is_nan x || is_zero x).

End JS.

(** ** Auxiliary notions on binary64 numbers *)
Module FloatOrder.

(** A key on which the comparison of numbers is lexicographic. *)
Definition rank (x : spec_float) : Z * Z * Z :=
  match x with
  | S754_infinity true => (-2, 0, 0)
  | S754_finite true m e => (-1, - e, - Z.pos m)
  | S754_zero _ => (0, 0, 0)
  | S754_nan => (0, 0, 0)
  | S754_finite false m e => (1, e, Z.pos m)
  | S754_infinity false => (2, 0, 0)
  end.

Definition lexlt (a b : Z * Z * Z) : Prop :=
  a.1.1 < b.1.1 \/ (a.1.1 = b.1.1 /\ (a.1.2 < b.1.2 \/ (a.1.2 = b.1.2 /\ a.2 < b.2))).

Definition isNaN (x : float) : Prop := Prim2SF x = S754_nan.

Definition key (x : float) : Z * Z * Z := rank (Prim2SF x).

End FloatOrder.


Module FloatSign.

(** Numbers that are neither negative nor NaN. *)
Definition nonneg (x : spec_float) : Prop :=
  match x with
  | S754_zero s | S754_infinity s | S754_finite s _ _ => s = false
  | S754_nan => False
  end.

Definition positiveFinite (x : spec_float) : Prop :=
  match x with
  | S754_finite false _ _ => True
  | _ => False
  end.

End FloatSign.


(** ** [src/core/arrangement.ts] *)

Module Arrangement.

#[local] Open Scope float_scope.

(** [ArrangementCounts = [number, number, number]]; the three numbers are
    integers produced by exact division. *)
Definition ArrangementCounts : Type := Z * Z * Z.

Record ArrangementInput := {
  in_width : float;
  in_depth : float;
  in_height : float }.

Record ArrangementResult := {
  width : float;
  depth : float;
  height : float;
  cubeFeet : float;
  counts : ArrangementCounts }.

(** The body shared by the two de-duplicating loops of the file:
    [if (!seen.has(key)) { seen.add(key); results.push(perm); }].
    The key [perm.join("x")] determines the triple, so the set of keys is kept
    as a set of triples. *)
Definition pushUnique (st : gset ArrangementCounts * list ArrangementCounts)
    (perm : ArrangementCounts) : gset ArrangementCounts * list ArrangementCounts :=
  if decide (perm ∈ st.1) then st else ({[perm]} ∪ st.1, st.2 ++ [perm]).

Definition uniquePermutations (triple : ArrangementCounts) : list ArrangementCounts :=
  let '(t0, t1, t2) := triple in
  let indices :=
    [ (t0, t1, t2); (t0, t2, t1); (t1, t0, t2);
      (t1, t2, t0); (t2, t0, t1); (t2, t1, t0) ] in
  (foldl pushUnique (∅, []) indices).2.

(** The innermost loop, for one pair of divisors [a], [b]. *)
Definition stepB (a quotient : Z)
    (st : gset ArrangementCounts * list ArrangementCounts) (b : Z) :=
  if decide ((quotient `mod` b)%Z ≠ 0%Z) then st
  else
    let c := (quotient `div` b)%Z in
    foldl pushUnique st (uniquePermutations (a, b, c)).

(** The outer loop body, for one candidate divisor [a]. *)
Definition stepA (absQty : Z)
    (st : gset ArrangementCounts * list ArrangementCounts) (a : Z) :=
  if decide ((absQty `mod` a)%Z ≠ 0%Z) then st
  else
    let quotient := (absQty `div` a)%Z in
    foldl (stepB a quotient) st (seqZ 1 quotient).

(** [quantity] is an integer-valued number, so [Math.floor(Math.abs(quantity))]
    is its absolute value.  (The source loop counts with numbers; the embedding
    agrees with it below 2^53, where [a += 1] is exact.) *)
Definition generateFactorTriples (quantity : Z) : list ArrangementCounts :=
  let absQty := Z.abs quantity in
  if decide (absQty ≤ 0)%Z then []
  else (foldl (stepA absQty) (∅, []) (seqZ 1 absQty)).2.

(** One round of the search loop, up to the [continue]: the outer dimensions
    and volume of a count triple, or [None] when the triple is skipped. *)
Definition evaluate (dims : ArrangementInput) (bufferInch : float)
    (counts : ArrangementCounts) : option ArrangementResult :=
  let '(countW, countD, countH) := counts in
  let width := JS.of_Z countW * in_width dims + bufferInch in
  let depth := JS.of_Z countD * in_depth dims + bufferInch in
  let height := JS.of_Z countH * in_height dims + bufferInch in
  if existsb (fun value => negb (JS.Number_isFinite value) || (value <=? 0))
       [width; depth; height]
  then None
  else
    let cubeFeet := (width * depth * height) / 1728 in
    Some {| width := width; depth := depth; height := height;
            cubeFeet := cubeFeet; counts := counts |}.

(** The rest of the round: [if (!best || cubeFeet < best.cubeFeet) best = ...]. *)
Definition keepBest (best : option ArrangementResult) (cand : ArrangementResult)
    : option ArrangementResult :=
  match best with
  | None => Some cand
  | Some b => if cubeFeet cand <? cubeFeet b then Some cand else best
  end.

Definition searchStep (dims : ArrangementInput) (bufferInch : float)
    (best : option ArrangementResult) (counts : ArrangementCounts) :=
  match evaluate dims bufferInch counts with
  | None => best
  | Some cand => keepBest best cand
  end.

Definition computeBestArrangement (quantity : Z) (dims : ArrangementInput)
    (bufferInch : float) : option ArrangementResult :=
  let triples := generateFactorTriples quantity in
  if decide (length triples = 0%nat) then None
  else foldl (searchStep dims bufferInch) None triples.

(** The candidates that survive the positivity/finiteness filter, in the
    order in which the search loop meets them. *)
Definition candidates (quantity : Z) (dims : ArrangementInput)
    (bufferInch : float) : list ArrangementResult :=
  omap (evaluate dims bufferInch) (generateFactorTriples quantity).

End Arrangement.

(** ** Notions used to state the properties of the solver *)

Module ArrangementSpec.

Import Arrangement.

(** An ordered triple of positive integers whose product is [n]. *)
Definition factorTriple (n : Z) (t : ArrangementCounts) : Prop :=
  0 < t.1.1 /\ 0 < t.1.2 /\ 0 < t.2 /\ t.1.1 * t.1.2 * t.2 = n.

(** Sample inputs: unit dimensions 2 x 1 x 1. *)
Definition dims211 : ArrangementInput :=
  {| in_width := 2; in_depth := 1; in_height := 1 |}.

(** The arrangement of eight such units in a row along the height. *)
Definition row8 : ArrangementResult :=
  {| width := 2; depth := 1; height := 8; cubeFeet := (16 / 1728)%float;
     counts := (1, 1, 8) |}.

(** The arrangement of eight such units as a 2 x 2 x 2 block. *)
Definition block8 : ArrangementResult :=
  {| width := 4; depth := 2; height := 2; cubeFeet := (16 / 1728)%float;
     counts := (2, 2, 2) |}.

Abbreviation acc := (gset ArrangementCounts * list ArrangementCounts)%type.

(** The accumulator of the de-duplicating loops: the set holds the keys of
    the triples pushed so far. *)
Definition synced (st : acc) : Prop := forall t, t ∈ st.1 <-> t ∈ st.2.

(** Invariant of the enumeration: everything pushed is a factor triple. *)
Definition sound (n : Z) (st : acc) : Prop := forall t, t ∈ st.2 -> factorTriple n t.

End ArrangementSpec.

(** ** Cell values handed over by the record store *)

Module Value.

(** A JavaScript string: its sequence of UTF-16 code units. *)
Abbreviation text := (list N).

(** Code units of an ASCII literal. *)
Definition utf16 (s : string) : text :=
  (fun a => N.of_nat (Ascii.nat_of_ascii a)) <$> String.list_ascii_of_string s.

(** The shapes a cell value takes.  Of an object the source reads no other
    property than [text] and [value] ([VUndefined] when the property is
    absent); an array has neither. *)
Inductive value :=
| VUndefined
| VNull
| VBoolean (b : bool)
| VNumber (x : float)
| VString (s : text)
| VObject (text_ value_ : value)
| VArray (items : list value).

(** [StrWhiteSpaceChar] of the language: WhiteSpace and LineTerminator. *)
Definition isStrWhiteSpaceChar (c : N) : bool :=
  bool_decide (c ∈ [0x09; 0x0A; 0x0B; 0x0C; 0x0D; 0x20; 0xA0; 0x1680;
                    0x2028; 0x2029; 0x202F; 0x205F; 0x3000; 0xFEFF]%N)
  || ((0x2000 <=? c)%N && (c <=? 0x200A)%N).

Fixpoint trimStart (s : text) : text :=
  match s with
  | c :: s' => if isStrWhiteSpaceChar c then trimStart s' else s
  | [] => []
  end.

(** [String.prototype.trim]. *)
Definition trim (s : text) : text := reverse (trimStart (reverse (trimStart s))).

(** [Number(s)] for a string: blank strings convert to [+0]; the conversion
    of the text that is left after trimming, [StrNumericLiteral], is the
    runtime's (NaN when the text is no numeric literal). *)
Definition StringToNumber (StrNumericLiteral : text -> float) (s : text) : float :=
  match trim s with
  | [] => 0%float
  | t => StrNumericLiteral t
  end.

End Value.

(** ** [src/utils/numbers.ts] *)

Module Numbers.

Import Value.
#[local] Open Scope float_scope.

Inductive BufferUnit := inch | cm.

Definition convertBufferToInches (value : float) (unit : BufferUnit) : float :=
  let CM_PER_INCH := 2.54 in
  if negb (JS.Number_isFinite value) then 0
  else match unit with cm => value / CM_PER_INCH | inch => value end.

Definition round (value : float) (fractionDigits : nat) : float :=
  let factor := JS.pow10 fractionDigits in
  JS.Math_round ((value + JS.Number_EPSILON) * factor) / factor.

(** [number | null] is [option float]. *)
Definition extractNumber (StrNumericLiteral : text -> float) (cellValue : value)
    : option float :=
  match cellValue with
  | VUndefined | VNull => None
  | VNumber x => if JS.Number_isFinite x then Some x else None
  | VString s =>
      let parsed := StringToNumber StrNumericLiteral s in
      if JS.Number_isFinite parsed then Some parsed else None
  | VObject _ maybeNumber =>
      match maybeNumber with
      | VNumber x => if JS.Number_isFinite x then Some x else None
      | _ => None
      end
  | VArray _ => None
  | VBoolean _ => None
  end.

(** What the written specification asks of [round]: the nearest multiple of
    [10^-digits], halves away from zero.  On the exact value [v / d] of the
    argument, as the numerator of the result over [10^digits]. *)
Definition roundHalfAwayFromZero (v d : Z) (digits : nat) : Z :=
  let scaled := (Z.abs v * 10 ^ Z.of_nat digits)%Z in
  (Z.sgn v * ((2 * scaled + d) `div` (2 * d)))%Z.

End Numbers.

(** ** The packing cascade: what both revisions of [runCalculation] share *)

Module Cascade.

Export Value Numbers Arrangement.
#[local] Open Scope float_scope.

Inductive InnerMaterial := Box | PolyBag.

(** [CalculationOptions]; its [onLog] callback is the log kept in the state. *)
Record CalculationOptions := {
  forceAll : bool;
  innerBuffer : float;
  innerBufferUnit : BufferUnit;
  masterBuffer : float;
  masterBufferUnit : BufferUnit;
  innerMaterial : InnerMaterial }.

Definition INNER_BOX_PACKAGING_WEIGHT_G : float := 100.
Definition GRAM_TO_POUND : float := 0.00220462.
Definition LB_TO_KG : float := 0.4536.

(** The keys of [FieldIds] ([src/config/fields.ts]); [itemCode] is read by the
    revised cascade only. *)
Module Key.
Inductive t :=
| itemHeight | itemWidth | itemDepth | itemWeight
| innerWidth | innerDepth | innerHeight | innerWeight
| innerQty | masterQty
| masterHeight | masterWidth | masterDepth
| grossWeight | netWeight | itemCode.
End Key.

(** [fieldIds[key]]: the resolved field id, [""] when the field is not
    configured. *)
Definition FieldIds : Type := Key.t -> text.

(** [!fieldId] *)
Definition unset (fieldId : text) : bool := bool_decide (fieldId = []).

(** A record as [getRecordById] returns it: [record.fields]. *)
Abbreviation Fields := (gmap text value).

Definition cell (fields : Fields) (fieldId : text) : value :=
  default VUndefined (fields !! fieldId).

(** The label of a record in log lines, [`#${index + 1} (${display})`]. *)
Record Label := { label_number : nat; label_display : text }.

(** The log lines of the two revisions, by the template that produces them. *)
Inductive message :=
| NoRecords
| WillProcess (total : nat)
| IncompleteDimensions (l : Label)
| InnerQtyNotInteger (l : Label)
| MasterQtyNotInteger (l : Label)
| MissingForInner (l : Label)
| NoInnerArrangement (l : Label)
| InnerWeightFilled (l : Label) (lbs : float)
| CannotDeriveInnerWeight (l : Label)
| NoInnerCarton (l : Label)
| InnerUpdated (l : Label) (w d h : float)
| MasterQtyMissing (l : Label)
| InvalidRatio (l : Label) (masterQty innerQty : float)
| NotDivisible (l : Label) (masterQty innerQty : float)
| MissingInnerDimensions (l : Label)
| MissingItemDimensions (l : Label)
| NoMasterArrangement (l : Label)
| NetWeightCleared (l : Label)
| MasterUpdated (l : Label) (w d h : float)
| NetWeightUpdated (l : Label) (kg : float)
| NetWeightFieldMissing (l : Label) (kg : float)
| Failed (l : Label) (error : text)
| Summary (processed total : nat).

(** What a run does to the outside world, in order. *)
Inductive event :=
| Log (m : message)
| SetCellValue (fieldId recordId : text) (v : option float)
| ShowToast
| LogError (context : string).

(** The record store and the notification host.  A call either answers or
    fails with an error, of which the cascade reads the message. *)
Record Host := {
  host_state : Type;
  getRecordById : text -> host_state -> (text + Fields) * host_state;
  setCellValue : text -> text -> option float -> host_state -> option text * host_state;
  showToast : host_state -> option text * host_state;
  StrNumericLiteral : text -> float;
  NumberToString : float -> text }.

(** The state of a run: the host, the events so far, the [processed]
    counter and the [label] variable of the current iteration. *)
Record State (host : Host) := {
  world : host_state host;
  trace : list event;
  processed : nat;
  label : Label }.

Arguments world {host}.
Arguments trace {host}.
Arguments processed {host}.
Arguments label {host}.

(** How a stretch of the loop body ends: it goes on, it leaves the iteration
    with [continue], or it throws. *)
Inductive outcome (A : Type) :=
| Next (a : A)
| Continue
| Throw (error : text).

Arguments Next {A}.
Arguments Continue {A}.
Arguments Throw {A}.

Definition M (host : Host) (A : Type) : Type := State host -> outcome A * State host.

Section Monad.

Context {host : Host}.

Definition ret {A} (a : A) : M host A := fun s => (Next a, s).

Definition bind {A B} (m : M host A) (k : A -> M host B) : M host B :=
  fun s =>
    match m s with
    | (Next a, s') => k a s'
    | (Continue, s') => (Continue, s')
    | (Throw e, s') => (Throw e, s')
    end.

Definition continue_ {A} : M host A := fun s => (Continue, s).

Definition emit (e : event) : M host unit :=
  fun s => (Next tt, {| world := world s; trace := trace s ++ [e];
                        processed := processed s; label := label s |}).

Definition onLog (m : message) : M host unit := emit (Log m).

Definition logError (context : string) : M host unit := emit (LogError context).

(** [processed += 1] *)
Definition countProcessed : M host unit :=
  fun s => (Next tt, {| world := world s; trace := trace s;
                        processed := S (processed s); label := label s |}).

Definition setLabel (l : Label) : M host unit :=
  fun s => (Next tt, {| world := world s; trace := trace s;
                        processed := processed s; label := l |}).

Definition getLabel : M host Label := fun s => (Next (label s), s).

Definition setWorld (w : host_state host) (s : State host) : State host :=
  {| world := w; trace := trace s; processed := processed s; label := label s |}.

(** [await table.getRecordById(recordId)], with the read of [record.fields]. *)
Definition getRecord (recordId : text) : M host Fields :=
  fun s =>
    match getRecordById host recordId (world s) with
    | (inl e, w) => (Throw e, setWorld w s)
    | (inr fields, w) => (Next fields, setWorld w s)
    end.

(** A call [table.setCellValue(fieldId, recordId, value)]: the write is
    issued at once; the promise it returns is kept as its eventual result,
    [Some e] when it rejects with [e]. *)
Definition issue (fieldId recordId : text) (v : option float) : M host (option text) :=
  fun s =>
    let '(r, w) := setCellValue host fieldId recordId v (world s) in
    (Next r, {| world := w; trace := trace s ++ [SetCellValue fieldId recordId v];
                processed := processed s; label := label s |}).

(** [await Promise.all(promises)]: throws when one of them rejects (the
    first in the list stands for the first to reject). *)
Definition awaitAll (promises : list (option text)) : M host unit :=
  match omap id promises with
  | e :: _ => fun s => (Throw e, s)
  | [] => ret tt
  end.

(** [try { await bitable.ui.showToast(...) } catch (e) { logError("toast", e) }] *)
Definition warnCasePack : M host unit :=
  fun s =>
    let '(r, w) := showToast host (world s) in
    let s' := {| world := w; trace := trace s ++ [ShowToast];
                 processed := processed s; label := label s |} in
    match r with
    | Some _ => logError "toast" s'
    | None => (Next tt, s')
    end.

End Monad.

Declare Scope cascade_scope.
Delimit Scope cascade_scope with cascade.

Notation "'let*' x ':=' m 'in' k" := (bind m (fun x => k))
  (at level 10, x pattern, m at level 100, k at level 200) : cascade_scope.
Notation "m ';;' k" := (bind m (fun _ => k))
  (at level 100, k at level 200, right associativity) : cascade_scope.

(** [value != null && Number.isFinite(value) && value > 0] *)
Definition isPositive (value : option float) : bool :=
  match value with
  | Some x => JS.Number_isFinite x && (0 <? x)
  | None => false
  end.

(** [[a, b, c].find(isPositive)] *)
Definition findPositive (values : list (option float)) : option float :=
  mjoin (snd <$> list_find (fun v => isPositive v = true) values).

(** [list.filter((id) => Boolean(id))]: identifiers that are neither
    [undefined] nor empty. *)
Definition normaliseIds (ids : list (option text)) : list text :=
  omap (fun id => match id with
                  | Some (c :: s) => Some (c :: s)
                  | _ => None
                  end) ids.

(** The closure [fetchValue] of the loop body. *)
Definition fetchValue (host : Host) (fieldIds : FieldIds) (fields : Fields)
    (key : Key.t) : option float :=
  let fieldId := fieldIds key in
  if unset fieldId then None
  else extractNumber (StrNumericLiteral host) (cell fields fieldId).

(** The record ids a run works on. *)
Definition effectiveIds (forceAll : bool) (selected visible : list (option text))
    : list text :=
  let selectedIds := normaliseIds selected in
  if forceAll then normaliseIds visible
  else if decide (0 < length selectedIds)%nat then selectedIds
  else normaliseIds visible.

End Cascade.

(** ** [src/core/calculator.ts] *)

Module Calculator.

Import Cascade.
#[local] Open Scope float_scope.
#[local] Open Scope cascade_scope.

Definition computePackagingWeightLb (innerQty : float) (itemWeight : option float)
    (innerMaterial : InnerMaterial) : option float :=
  if innerQty <=? 0 then None
  else
    match itemWeight with
    | None => None
    | Some w =>
        if negb (JS.Number_isFinite w) then None
        else
          let packagingWeight :=
            match innerMaterial with
            | PolyBag => 0
            | Box => INNER_BOX_PACKAGING_WEIGHT_G
            end in
          let totalGrams := innerQty * w + packagingWeight in
          Some (totalGrams * GRAM_TO_POUND)
    end.

Definition formatRecordLabel (recordId : text) (index : nat) : Label :=
  {| label_number := index + 1; label_display := recordId |}.

(** [raw ? Math.trunc(raw) : 0] *)
Definition truncOrZero (raw : option float) : float :=
  match raw with
  | Some x => if JS.truthy x then JS.Math_trunc x else 0
  | None => 0
  end.

(** [value as number]: in arithmetic, [null] counts as [0]. *)
Definition asNumber (value : option float) : float := default 0 value.

Section Run.

Context (host : Host) (fieldIds : FieldIds) (options : CalculationOptions).

Definition innerBufferInches : float :=
  convertBufferToInches (innerBuffer options) (innerBufferUnit options).

Definition masterBufferInches : float :=
  convertBufferToInches (masterBuffer options) (masterBufferUnit options).

(** Lines 113-159: the inner carton.  Returns [innerArrangement] and
    [innerGrossWeightLb]. *)
Definition innerLevel (recordId : text) (label : Label) (innerQty : float)
    (itemWidth itemDepth itemHeight itemWeight : option float)
    : M host (option ArrangementResult * option float) :=
  if 0 <? innerQty then
    if existsb (fun value => bool_decide (value = None))
         [itemWidth; itemDepth; itemHeight; itemWeight]
    then onLog (MissingForInner label) ;; ret (None, None)
    else
      match computeBestArrangement (JS.to_Z innerQty)
              {| in_width := asNumber itemWidth; in_depth := asNumber itemDepth;
                 in_height := asNumber itemHeight |} innerBufferInches with
      | None => onLog (NoInnerArrangement label) ;; ret (None, None)
      | Some arrangement =>
          let innerGrossWeightLb :=
            computePackagingWeightLb innerQty itemWeight (innerMaterial options) in
          let* p1 := issue (fieldIds Key.innerWidth) recordId
                       (Some (round (width arrangement) 3)) in
          let* p2 := issue (fieldIds Key.innerDepth) recordId
                       (Some (round (depth arrangement) 3)) in
          let* p3 := issue (fieldIds Key.innerHeight) recordId
                       (Some (round (height arrangement) 3)) in
          let* pushed :=
            match innerGrossWeightLb with
            | Some lb =>
                if negb (unset (fieldIds Key.innerWeight)) then
                  let* p4 := issue (fieldIds Key.innerWeight) recordId
                               (Some (round lb 3)) in
                  ret [p4]
                else ret []
            | None => ret []
            end in
          awaitAll ([p1; p2; p3] ++ pushed) ;;
          onLog (InnerUpdated label (width arrangement) (depth arrangement)
                   (height arrangement)) ;;
          ret (Some arrangement, innerGrossWeightLb)
      end
  else onLog (NoInnerCarton label) ;; ret (None, None).

(** Lines 161-175: the master quantity gate. *)
Definition masterGate (label : Label) (masterQty : float) : M host unit :=
  if masterQty <=? 0 then
    onLog (MasterQtyMissing label) ;;
    (if masterQty =? 0 then warnCasePack else ret tt) ;;
    countProcessed ;;
    continue_
  else ret tt.

(** Lines 177-254: the master carton.  Returns [masterArrangement] and
    [netWeightKg]. *)
Definition masterLevel (label : Label) (innerQty masterQty : float)
    (itemWidth itemDepth itemHeight itemWeight : option float)
    (existingInnerWidth existingInnerDepth existingInnerHeight
     existingInnerWeightLb : option float)
    (innerArrangement : option ArrangementResult) (innerGrossWeightLb : option float)
    : M host (option ArrangementResult * option float) :=
  if 0 <? innerQty then
    let innersPerMaster := masterQty / innerQty in
    if negb (JS.Number_isInteger innersPerMaster) || (innersPerMaster <=? 0) then
      onLog (NotDivisible label masterQty innerQty) ;; countProcessed ;; continue_
    else
      let baseWidth :=
        findPositive [width <$> innerArrangement; existingInnerWidth; itemWidth] in
      let baseDepth :=
        findPositive [depth <$> innerArrangement; existingInnerDepth; itemDepth] in
      let baseHeight :=
        findPositive [height <$> innerArrangement; existingInnerHeight; itemHeight] in
      match baseWidth, baseDepth, baseHeight with
      | Some baseWidth, Some baseDepth, Some baseHeight =>
          match computeBestArrangement (JS.to_Z innersPerMaster)
                  {| in_width := baseWidth; in_depth := baseDepth;
                     in_height := baseHeight |} masterBufferInches with
          | None => onLog (NoMasterArrangement label) ;; countProcessed ;; continue_
          | Some masterArrangement =>
              let innerWeightSourceLb :=
                match innerGrossWeightLb, existingInnerWeightLb with
                | Some lb, _ => Some lb
                | None, Some lb => Some lb
                | None, None =>
                    computePackagingWeightLb innerQty itemWeight (innerMaterial options)
                end in
              let netWeightKg :=
                match innerWeightSourceLb, itemWeight with
                | Some lb, _ => Some (lb * innersPerMaster * 0.4536)
                | None, Some w => Some ((w / 1000) * masterQty)
                | None, None => None
                end in
              ret (Some masterArrangement, netWeightKg)
          end
      | _, _, _ => onLog (MissingInnerDimensions label) ;; countProcessed ;; continue_
      end
  else
    if negb (isPositive itemWidth) || negb (isPositive itemDepth)
       || negb (isPositive itemHeight)
    then onLog (MissingItemDimensions label) ;; countProcessed ;; continue_
    else
      match computeBestArrangement (JS.to_Z masterQty)
              {| in_width := asNumber itemWidth; in_depth := asNumber itemDepth;
                 in_height := asNumber itemHeight |} masterBufferInches with
      | None => onLog (NoMasterArrangement label) ;; countProcessed ;; continue_
      | Some masterArrangement =>
          ret (Some masterArrangement, (fun w => (w / 1000) * masterQty) <$> itemWeight)
      end.

(** Lines 256-272: the master write-back. *)
Definition writeMaster (recordId : text) (label : Label)
    (masterArrangement : ArrangementResult) (netWeightKg : option float)
    : M host unit :=
  let* p1 := issue (fieldIds Key.masterWidth) recordId
               (Some (round (width masterArrangement) 3)) in
  let* p2 := issue (fieldIds Key.masterDepth) recordId
               (Some (round (depth masterArrangement) 3)) in
  let* p3 := issue (fieldIds Key.masterHeight) recordId
               (Some (round (height masterArrangement) 3)) in
  let* pushed :=
    match netWeightKg with
    | Some kg =>
        if negb (unset (fieldIds Key.netWeight)) then
          let* p4 := issue (fieldIds Key.netWeight) recordId (Some (round kg 3)) in
          ret [p4]
        else ret []
    | None => ret []
    end in
  awaitAll ([p1; p2; p3] ++ pushed) ;;
  onLog (MasterUpdated label (width masterArrangement) (depth masterArrangement)
           (height masterArrangement)) ;;
  countProcessed.

(** The body of the [try] block, lines 84-272. *)
Definition processRecord (index : nat) (recordId : text) : M host unit :=
  let label := formatRecordLabel recordId index in
  let* fields := getRecord recordId in
  let fetchValue := fetchValue host fieldIds fields in
  let itemWidth := fetchValue Key.itemWidth in
  let itemDepth := fetchValue Key.itemDepth in
  let itemHeight := fetchValue Key.itemHeight in
  let itemWeight := fetchValue Key.itemWeight in
  let innerQtyRaw := fetchValue Key.innerQty in
  let masterQtyRaw := fetchValue Key.masterQty in
  if negb (isPositive itemWidth) || negb (isPositive itemDepth)
     || negb (isPositive itemHeight)
  then onLog (IncompleteDimensions label) ;; countProcessed ;; continue_
  else
    let innerQty := truncOrZero innerQtyRaw in
    let masterQty := truncOrZero masterQtyRaw in
    let existingInnerWidth := fetchValue Key.innerWidth in
    let existingInnerDepth := fetchValue Key.innerDepth in
    let existingInnerHeight := fetchValue Key.innerHeight in
    let existingInnerWeightLb := fetchValue Key.innerWeight in
    let* (innerArrangement, innerGrossWeightLb) :=
      innerLevel recordId label innerQty itemWidth itemDepth itemHeight itemWeight in
    masterGate label masterQty ;;
    let* (masterArrangement, netWeightKg) :=
      masterLevel label innerQty masterQty itemWidth itemDepth itemHeight itemWeight
        existingInnerWidth existingInnerDepth existingInnerHeight
        existingInnerWeightLb innerArrangement innerGrossWeightLb in
    match masterArrangement with
    | None => countProcessed ;; continue_
    | Some masterArrangement => writeMaster recordId label masterArrangement netWeightKg
    end.

(** One round of the [for] loop: the [try] block and its [catch]. *)
Definition iteration (s : State host) (entry : nat * text) : State host :=
  let '(index, recordId) := entry in
  let label := formatRecordLabel recordId index in
  match (setLabel label ;; processRecord index recordId) s with
  | (Throw e, s') => ((logError "record-calc" ;; onLog (Failed (Cascade.label s') e)) s').2
  | (_, s') => s'
  end.

(** [runCalculation], given the two record id lists of the view. *)
Definition runCalculation (selected visible : list (option text))
    (w : host_state host) : State host :=
  let recordIds := effectiveIds (forceAll options) selected visible in
  let s0 := {| world := w; trace := []; processed := 0;
               label := {| label_number := 0; label_display := [] |} |} in
  if decide (length recordIds = 0)%nat then (onLog NoRecords s0).2
  else
    let s1 := (onLog (WillProcess (length recordIds)) s0).2 in
    let s2 := foldl iteration s1 (imap pair recordIds) in
    (onLog (Summary (processed s2) (length recordIds)) s2).2.

End Run.

End Calculator.

(** ** [src/unnamed/part_002]: the revision of [core/calculator.ts] with
    quantity validation *)

Module CalculatorRevised.

Import Cascade.
#[local] Open Scope float_scope.
#[local] Open Scope cascade_scope.

Definition INNER_FIELD_KEYS : list Key.t :=
  [Key.innerWidth; Key.innerDepth; Key.innerHeight; Key.innerWeight].

Definition computeInnerGrossWeightLb (innerQty : float) (itemWeight : option float)
    (innerMaterial : InnerMaterial) : option float :=
  if innerQty <=? 0 then None
  else if negb (isPositive itemWeight) then None
  else
    let packagingWeight :=
      match innerMaterial with
      | PolyBag => 0
      | Box => INNER_BOX_PACKAGING_WEIGHT_G
      end in
    let totalGrams := innerQty * Calculator.asNumber itemWeight + packagingWeight in
    Some (totalGrams * GRAM_TO_POUND).

(** A non-empty trimmed string, or [null]. *)
Definition trimmedOrNull (s : text) : option text :=
  let trimmed := trim s in
  if decide (length trimmed = 0)%nat then None else Some trimmed.

(** The chain of conditionals that picks a text out of the [text] and
    [value] properties of an object. *)
Definition textCandidate (NumberToString : float -> text) (text_ value_ : value)
    : option text :=
  match text_ with
  | VString s => Some s
  | _ =>
      match text_ with
      | VNumber x => if JS.Number_isFinite x then Some (NumberToString x) else None
      | _ => None
      end
      ∪
      match value_ with
      | VString s => Some s
      | VNumber x => if JS.Number_isFinite x then Some (NumberToString x) else None
      | _ => None
      end
  end.

Definition extractTextValue (NumberToString : float -> text) (cellValue : value)
    : option text :=
  match cellValue with
  | VUndefined | VNull => None
  | VNumber x => if JS.Number_isFinite x then Some (NumberToString x) else None
  | VString s => trimmedOrNull s
  | VObject text_ value_ => textCandidate NumberToString text_ value_ ≫= trimmedOrNull
  | VArray _ => None
  | VBoolean _ => None
  end.

(** [itemCode && itemCode.trim().length ? itemCode.trim() : recordId] *)
Definition formatRecordLabel (recordId : text) (index : nat) (itemCode : option text)
    : Label :=
  {| label_number := index + 1;
     label_display := default recordId (itemCode ≫= trimmedOrNull) |}.

Section Run.

Context (host : Host) (fieldIds : FieldIds) (options : CalculationOptions).

Definition effectiveInnerBuffer : float :=
  match innerMaterial options with
  | PolyBag => 0
  | Box => innerBuffer options
  end.

Definition innerBufferInches : float :=
  convertBufferToInches effectiveInnerBuffer (innerBufferUnit options).

Definition masterBufferInches : float :=
  convertBufferToInches (masterBuffer options) (masterBufferUnit options).

(** The closure [fetchText] of the loop body. *)
Definition fetchText (fields : Fields) (key : Key.t) : option text :=
  let fieldId := fieldIds key in
  if unset fieldId then None
  else
    let cellValue := cell fields fieldId in
    match cellValue with
    | VArray (VObject text_ value_ :: _) =>
        match textCandidate (NumberToString host) text_ value_ with
        | Some candidate => extractTextValue (NumberToString host) (VString candidate)
        | None => extractTextValue (NumberToString host) cellValue
        end
    | VArray (VString s :: _) => extractTextValue (NumberToString host) (VString s)
    | VArray (VNumber x :: _) =>
        if JS.Number_isFinite x then extractTextValue (NumberToString host) (VNumber x)
        else extractTextValue (NumberToString host) cellValue
    | _ => extractTextValue (NumberToString host) cellValue
    end.

(** [if (fieldIds[key]) updates.push(table.setCellValue(fieldIds[key], recordId, v))]:
    the promises pushed. *)
Definition pushIfSet (key : Key.t) (recordId : text) (v : option float)
    : M host (list (option text)) :=
  if unset (fieldIds key) then ret []
  else let* p := issue (fieldIds key) recordId v in ret [p].

(** The closure [clearInnerValues], for the keys still to visit. *)
Fixpoint clearKeys (keys : list Key.t) (recordId : text)
    : M host (list (option text)) :=
  match keys with
  | [] => ret []
  | key :: keys' =>
      let* p := pushIfSet key recordId None in
      let* ps := clearKeys keys' recordId in
      ret (p ++ ps)
  end.

Definition clearInnerValues (recordId : text) : M host unit :=
  let* clears := clearKeys INNER_FIELD_KEYS recordId in
  if decide (length clears = 0)%nat then ret tt else awaitAll clears.

(** Lines 231-327: the inner carton.  Returns [innerArrangement]. *)
Definition innerLevel (recordId : text) (label : Label) (innerQty : float)
    (itemWidth itemDepth itemHeight itemWeight existingInnerWeightLb : option float)
    : M host (option ArrangementResult) :=
  let* (innerArrangement, innerUpdates) :=
    if 0 <? innerQty then
      let* (innerArrangement, dimensionUpdates) :=
        match computeBestArrangement (JS.to_Z innerQty)
                {| in_width := Calculator.asNumber itemWidth;
                   in_depth := Calculator.asNumber itemDepth;
                   in_height := Calculator.asNumber itemHeight |} innerBufferInches with
        | None => onLog (NoInnerArrangement label) ;; ret (None, [])
        | Some arrangement =>
            let* p1 := pushIfSet Key.innerWidth recordId
                         (Some (round (width arrangement) 3)) in
            let* p2 := pushIfSet Key.innerDepth recordId
                         (Some (round (depth arrangement) 3)) in
            let* p3 := pushIfSet Key.innerHeight recordId
                         (Some (round (height arrangement) 3)) in
            ret (Some arrangement, p1 ++ p2 ++ p3)
        end in
      let computedInnerWeight :=
        computeInnerGrossWeightLb innerQty itemWeight (innerMaterial options) in
      let* weightUpdates :=
        match computedInnerWeight with
        | Some computed =>
            if negb (unset (fieldIds Key.innerWeight)) then
              let shouldUpdate :=
                negb (isPositive existingInnerWeightLb)
                || (0.001 <? abs (Calculator.asNumber existingInnerWeightLb - computed)) in
              if shouldUpdate then
                let* p := issue (fieldIds Key.innerWeight) recordId
                            (Some (round computed 3)) in
                onLog (InnerWeightFilled label computed) ;;
                ret [p]
              else ret []
            else ret []
        | None =>
            if negb (isPositive existingInnerWeightLb)
            then onLog (CannotDeriveInnerWeight label) ;; ret []
            else ret []
        end in
      ret (innerArrangement, dimensionUpdates ++ weightUpdates)
    else
      onLog (NoInnerCarton label) ;;
      clearInnerValues recordId ;;
      ret (None, []) in
  (if decide (length innerUpdates = 0)%nat then ret tt else awaitAll innerUpdates) ;;
  match innerArrangement with
  | Some arrangement =>
      onLog (InnerUpdated label (width arrangement) (depth arrangement)
               (height arrangement)) ;;
      ret innerArrangement
  | None => ret innerArrangement
  end.

(** Lines 329-344: the master quantity gate. *)
Definition masterGate (label : Label) (masterQty : float) : M host unit :=
  if masterQty <=? 0 then
    onLog (MasterQtyMissing label) ;;
    (if masterQty =? 0 then warnCasePack else ret tt) ;;
    countProcessed ;;
    continue_
  else ret tt.

(** The three pushes of the master dimensions (lines 406-433 and 451-478). *)
Definition pushMasterDimensions (recordId : text) (arrangement : ArrangementResult)
    : M host (list (option text)) :=
  let* p1 := pushIfSet Key.masterWidth recordId (Some (round (width arrangement) 3)) in
  let* p2 := pushIfSet Key.masterDepth recordId (Some (round (depth arrangement) 3)) in
  let* p3 := pushIfSet Key.masterHeight recordId (Some (round (height arrangement) 3)) in
  ret (p1 ++ p2 ++ p3).

(** Lines 346-479: the ratio check and the master carton.  Returns
    [masterArrangement] and the pending [masterUpdates]. *)
Definition masterLevel (recordId : text) (label : Label) (innerQty masterQty : float)
    (itemWidth itemDepth itemHeight : option float)
    (existingInnerWidth existingInnerDepth existingInnerHeight : option float)
    (innerArrangement : option ArrangementResult)
    : M host (option ArrangementResult * list (option text)) :=
  let divisor := if 0 <? innerQty then innerQty else 1 in
  let ratio := masterQty / divisor in
  if negb (JS.Number_isFinite ratio) || (ratio <=? 0) then
    onLog (InvalidRatio label masterQty innerQty) ;; countProcessed ;; continue_
  else if 0 <? innerQty then
    let innersPerMaster := ratio in
    if negb (JS.Number_isInteger innersPerMaster) then
      onLog (NotDivisible label masterQty innerQty) ;; countProcessed ;; continue_
    else
      let baseWidth :=
        findPositive [width <$> innerArrangement; existingInnerWidth; itemWidth] in
      let baseDepth :=
        findPositive [depth <$> innerArrangement; existingInnerDepth; itemDepth] in
      let baseHeight :=
        findPositive [height <$> innerArrangement; existingInnerHeight; itemHeight] in
      match baseWidth, baseDepth, baseHeight with
      | Some baseWidth, Some baseDepth, Some baseHeight =>
          match computeBestArrangement (JS.to_Z innersPerMaster)
                  {| in_width := baseWidth; in_depth := baseDepth;
                     in_height := baseHeight |} masterBufferInches with
          | None => onLog (NoMasterArrangement label) ;; countProcessed ;; continue_
          | Some arrangement =>
              let* masterUpdates := pushMasterDimensions recordId arrangement in
              ret (Some arrangement, masterUpdates)
          end
      | _, _, _ => onLog (MissingInnerDimensions label) ;; countProcessed ;; continue_
      end
  else
    match computeBestArrangement (JS.to_Z masterQty)
            {| in_width := Calculator.asNumber itemWidth;
               in_depth := Calculator.asNumber itemDepth;
               in_height := Calculator.asNumber itemHeight |} masterBufferInches with
    | None => onLog (NoMasterArrangement label) ;; countProcessed ;; continue_
    | Some arrangement =>
        let* masterUpdates := pushMasterDimensions recordId arrangement in
        ret (Some arrangement, masterUpdates)
    end.

(** Lines 481-495: the net weight.  Returns [netWeightKg] and the promises
    pushed onto [masterUpdates]. *)
Definition netWeightStep (recordId : text) (label : Label) (masterQty : float)
    (itemWeight : option float) : M host (option float * list (option text)) :=
  if isPositive itemWeight then
    let netWeightKg := round ((Calculator.asNumber itemWeight / 1000) * masterQty) 3 in
    let* p := pushIfSet Key.netWeight recordId (Some netWeightKg) in
    ret (Some netWeightKg, p)
  else
    let* p := pushIfSet Key.netWeight recordId None in
    onLog (NetWeightCleared label) ;;
    ret (None, p).

(** Lines 497-521: the end of the [try] block. *)
Definition finish (label : Label) (masterArrangement : option ArrangementResult)
    (netWeightKg : option float) (masterUpdates : list (option text)) : M host unit :=
  (if decide (length masterUpdates = 0)%nat then ret tt else awaitAll masterUpdates) ;;
  match masterArrangement with
  | Some arrangement =>
      onLog (MasterUpdated label (width arrangement) (depth arrangement)
               (height arrangement))
  | None => ret tt
  end ;;
  match netWeightKg with
  | Some kg =>
      if negb (unset (fieldIds Key.netWeight)) then onLog (NetWeightUpdated label kg)
      else onLog (NetWeightFieldMissing label kg)
  | None => ret tt
  end ;;
  countProcessed.

(** Lines 189-192: the label of the record, by its item code when it has one. *)
Definition recordLabel (fields : Fields) (index : nat) (recordId : text) : Label :=
  let rawItemCode :=
    if unset (fieldIds Key.itemCode) then None else fetchText fields Key.itemCode in
  let itemCode := rawItemCode ≫= trimmedOrNull in
  formatRecordLabel recordId index itemCode.

(** The body of the [try] block, lines 140-521. *)
Definition processRecord (index : nat) (recordId : text) : M host unit :=
  let* fields := getRecord recordId in
  let fetchValue := fetchValue host fieldIds fields in
  let label := recordLabel fields index recordId in
  setLabel label ;;
  let itemWidth := fetchValue Key.itemWidth in
  let itemDepth := fetchValue Key.itemDepth in
  let itemHeight := fetchValue Key.itemHeight in
  let itemWeight := fetchValue Key.itemWeight in
  let innerQtyRaw := fetchValue Key.innerQty in
  let masterQtyRaw := fetchValue Key.masterQty in
  if negb (isPositive itemWidth) || negb (isPositive itemDepth)
     || negb (isPositive itemHeight)
  then onLog (IncompleteDimensions label) ;; countProcessed ;; continue_
  else if bool_decide (innerQtyRaw ≠ None)
          && negb (JS.Number_isInteger (Calculator.asNumber innerQtyRaw))
  then onLog (InnerQtyNotInteger label) ;; countProcessed ;; continue_
  else if bool_decide (masterQtyRaw ≠ None)
          && negb (JS.Number_isInteger (Calculator.asNumber masterQtyRaw))
  then onLog (MasterQtyNotInteger label) ;; countProcessed ;; continue_
  else
    let innerQty := default 0 innerQtyRaw in
    let masterQty := default 0 masterQtyRaw in
    let existingInnerWidth := fetchValue Key.innerWidth in
    let existingInnerDepth := fetchValue Key.innerDepth in
    let existingInnerHeight := fetchValue Key.innerHeight in
    let existingInnerWeightLb := fetchValue Key.innerWeight in
    let* innerArrangement :=
      innerLevel recordId label innerQty itemWidth itemDepth itemHeight itemWeight
        existingInnerWeightLb in
    masterGate label masterQty ;;
    let* (masterArrangement, masterUpdates) :=
      masterLevel recordId label innerQty masterQty itemWidth itemDepth itemHeight
        existingInnerWidth existingInnerDepth existingInnerHeight innerArrangement in
    let* (netWeightKg, pushed) := netWeightStep recordId label masterQty itemWeight in
    finish label masterArrangement netWeightKg (masterUpdates ++ pushed).

(** One round of the [for] loop: the [try] block and its [catch]. *)
Definition iteration (s : State host) (entry : nat * text) : State host :=
  let '(index, recordId) := entry in
  let label := formatRecordLabel recordId index None in
  match (setLabel label ;; processRecord index recordId) s with
  | (Throw e, s') => ((logError "record-calc" ;; onLog (Failed (Cascade.label s') e)) s').2
  | (_, s') => s'
  end.

(** [runCalculation], given the two record id lists of the view. *)
Definition runCalculation (selected visible : list (option text))
    (w : host_state host) : State host :=
  let recordIds := effectiveIds (forceAll options) selected visible in
  let s0 := {| world := w; trace := []; processed := 0;
               label := {| label_number := 0; label_display := [] |} |} in
  if decide (length recordIds = 0)%nat then (onLog NoRecords s0).2
  else
    let s1 := (onLog (WillProcess (length recordIds)) s0).2 in
    let s2 := foldl iteration s1 (imap pair recordIds) in
    (onLog (Summary (processed s2) (length recordIds)) s2).2.

End Run.

End CalculatorRevised.

(** ** Notions used to state the properties of the number helpers *)

Module NumbersSpec.

Import Value Numbers.

(** A string of white space only (the empty string among them). *)
Definition blank (s : text) : Prop := Forall (fun c => isStrWhiteSpaceChar c = true) s.

(** The two halves at distance [k + 1/2] from zero, rounded to an integer:
    the positive one goes to [k + 1], the negative one to [- k]. *)
Definition halvesGoUp (k : Z) : bool :=
  let half := (JS.of_Z (2 * k + 1) / 2)%float in
  (round half 0 =? JS.of_Z (k + 1))%float && (round (- half) 0 =? JS.of_Z (- k))%float.

End NumbersSpec.

(** ** Notions used to state the properties of the cascade *)

Module CascadeSpec.

Import Cascade.

(** The values a run wrote to one cell, in order. *)
Definition written (fieldId recordId : text) (t : list event) : list (option float) :=
  omap (fun e => match e with
                 | SetCellValue f r v =>
                     if decide (f = fieldId /\ r = recordId) then Some v else None
                 | _ => None
                 end) t.

(** The log lines of a run, in order. *)
Definition logged (t : list event) : list message :=
  omap (fun e => match e with Log m => Some m | _ => None end) t.

(** The line the [catch] block logs. *)
Definition isFailed (e : event) : bool :=
  match e with
  | Log (Failed _ _) => true
  | _ => false
  end.

(** The number of records whose processing threw. *)
Definition failures (t : list event) : nat := length (filter (fun e => isFailed e = true) t).

(** The events [new] were appended, none of them a line of the [catch] block. *)
Definition appended {host} (s s' : State host) : Prop :=
  exists new, trace s' = trace s ++ new /\ Forall (fun e => isFailed e = false) new.

(** A stretch of the loop body: it appends events, and changes the counter
    only when it leaves the iteration by [processed += 1; continue]. *)
Definition stretch {host A} (m : M host A) : Prop :=
  forall s, appended s (m s).2 /\
    processed (m s).2 = match (m s).1 with
                        | Continue => S (processed s)
                        | _ => processed s
                        end.

(** A stretch that runs to the end of the [try] block: unless it throws, the
    record has been counted once when it ends. *)
Definition closing {host A} (m : M host A) : Prop :=
  forall s, appended s (m s).2 /\
    processed (m s).2 = match (m s).1 with
                        | Throw _ => processed s
                        | _ => S (processed s)
                        end.

(** What the summary line of a run over the records [ids] has to say: the
    counter it reports and the failures logged add up to the records. *)
Definition tallied {host} (ids : list text) (s : State host) : Prop :=
  match ids with
  | [] => trace s = [Log NoRecords]
  | _ =>
      last (trace s) = Some (Log (Summary (processed s) (length ids))) /\
      (processed s + failures (trace s) = length ids)%nat
  end.

End CascadeSpec.

(** ** Sample tables and runs *)

Module CascadeSamples.
Import Cascade.

(** Field ids of a fully configured table: each key under its own name. *)
Definition allFields : FieldIds := fun key =>
  match key with
  | Key.itemHeight => utf16 "itemHeight" | Key.itemWidth => utf16 "itemWidth"
  | Key.itemDepth => utf16 "itemDepth" | Key.itemWeight => utf16 "itemWeight"
  | Key.innerWidth => utf16 "innerWidth" | Key.innerDepth => utf16 "innerDepth"
  | Key.innerHeight => utf16 "innerHeight" | Key.innerWeight => utf16 "innerWeight"
  | Key.innerQty => utf16 "innerQty" | Key.masterQty => utf16 "masterQty"
  | Key.masterHeight => utf16 "masterHeight" | Key.masterWidth => utf16 "masterWidth"
  | Key.masterDepth => utf16 "masterDepth" | Key.grossWeight => utf16 "grossWeight"
  | Key.netWeight => utf16 "netWeight" | Key.itemCode => utf16 "itemCode"
  end.

(** A record store over a fixed table: reads answer from [rows], a missing
    record fails; writes and toasts succeed. *)
Definition tableHost (rows : gmap text Fields) : Host :=
  {| host_state := unit;
     getRecordById := fun id w =>
       (match rows !! id with
        | Some fields => inr fields
        | None => inl (utf16 "record not found")
        end, w);
     setCellValue := fun _ _ _ w => (None, w);
     showToast := fun w => (None, w);
     StrNumericLiteral := fun _ => nan;
     NumberToString := fun _ => [] |}.

(** A unit cube of [weight] grams, packed [inner] to the inner carton and
    [master] to the master carton. *)
Definition cubeRecord (weight inner master : value) : Fields :=
  list_to_map
    [ (utf16 "itemWidth", VNumber 1); (utf16 "itemDepth", VNumber 1);
      (utf16 "itemHeight", VNumber 1); (utf16 "itemWeight", weight);
      (utf16 "innerQty", inner); (utf16 "masterQty", master) ].

Definition oneRow (fields : Fields) : gmap text Fields :=
  {[ utf16 "rec1" := fields ]}.

Definition sampleOptions (material : InnerMaterial) (buffer : float) : CalculationOptions :=
  {| forceAll := true; innerBuffer := buffer; innerBufferUnit := inch;
     masterBuffer := 0; masterBufferUnit := inch; innerMaterial := material |}.

(** The record the samples run on, and the run of either revision over it. *)
Definition rec1 : text := utf16 "rec1".

Definition label1 : Label := {| label_number := 1; label_display := rec1 |}.

Definition runCalculator (material : InnerMaterial) (buffer : float) (fields : Fields)
    : list event :=
  trace (Calculator.runCalculation (tableHost (oneRow fields)) allFields
           (sampleOptions material buffer) [] [Some rec1] tt).

Definition runRevised (material : InnerMaterial) (buffer : float) (fields : Fields)
    : list event :=
  trace (CalculatorRevised.runCalculation (tableHost (oneRow fields)) allFields
           (sampleOptions material buffer) [] [Some rec1] tt).

End CascadeSamples.

(** ** The state of an enumeration without repetition *)

Module EnumerationSpec.

Import Arrangement ArrangementSpec.

(** The list of results mirrors the set of keys and repeats nothing. *)
Definition tidy (st : acc) : Prop := synced st /\ NoDup st.2.

End EnumerationSpec.

(** ** Predicates on the events of a run *)

Module CascadeMoreSpec.

Import Cascade.

(** A stretch of the loop body appends events that all satisfy [P]. *)
Definition emits {host A} (P : event -> Prop) (m : M host A) : Prop :=
  forall s, exists new, trace (m s).2 = trace s ++ new /\ Forall P new.

(** A write goes to a configured field of the record [recordId]. *)
Definition writesConfigured (recordId : text) (e : event) : Prop :=
  match e with
  | SetCellValue f r _ => f <> [] /\ r = recordId
  | _ => True
  end.

(** A write goes to the record [recordId]. *)
Definition writesRecord (recordId : text) (e : event) : Prop :=
  match e with
  | SetCellValue _ r _ => r = recordId
  | _ => True
  end.

(** The writes that clear the configured fields among [keys]. *)
Definition clears (fieldIds : FieldIds) (recordId : text) (keys : list Key.t)
    : list event :=
  (fun key => SetCellValue (fieldIds key) recordId None)
    <$> filter (fun key => unset (fieldIds key) = false) keys.

(** A write goes to a configured field of one of the records [ids]. *)
Definition writesConfiguredOf (ids : list text) (e : event) : Prop :=
  match e with
  | SetCellValue f r _ => f <> [] /\ r ∈ ids
  | _ => True
  end.

(** A write goes to one of the records [ids]. *)
Definition writesRecordOf (ids : list text) (e : event) : Prop :=
  match e with
  | SetCellValue _ r _ => r ∈ ids
  | _ => True
  end.

End CascadeMoreSpec.

(** ** [src/utils/strings.ts], [src/utils/field.ts], [src/config/fields.ts]
    and the field lookup of [src/core/context.ts] *)

Module Fields.

Import Value Cascade.

(** [name.replace(/\s+/g, " ")]: every run of white space becomes one space.
    [inRun] tells that the code unit before was white space. *)
Fixpoint collapseFrom (inRun : bool) (s : text) : text :=
  match s with
  | [] => []
  | c :: s' =>
      if isStrWhiteSpaceChar c
      then (if inRun then collapseFrom true s' else 0x20%N :: collapseFrom true s')
      else c :: collapseFrom false s'
  end.

(** [normalizeFieldName]; the case mapping [toLowerCase] is the runtime's. *)
Definition normalizeFieldName (toLowerCase : text -> text) (name : text) : text :=
  toLowerCase (trim (collapseFrom false name)).

(** [FieldMetaLike]; field types are the integer codes of the host. *)
Record FieldMetaLike := {
  id : text;
  name : text;
  type : option Z }.

(** [fieldMetas.find(p)] *)
Definition find {A} (p : A -> bool) (l : list A) : option A :=
  snd <$> list_find (fun x => p x = true) l.

Definition getFieldIdByName (toLowerCase : text -> text)
    (fieldMetas : list FieldMetaLike) (name : text) (expectType : option Z)
    : option text :=
  let normalizedTarget := normalizeFieldName toLowerCase name in
  let candidate :=
    find (fun meta =>
            let matchesName :=
              bool_decide (normalizeFieldName toLowerCase (Fields.name meta)
                           = normalizedTarget) in
            if negb matchesName then false
            else match expectType with
                 | None => true
                 | Some t => bool_decide (type meta = Some t)
                 end) fieldMetas in
  let candidate :=
    match candidate, expectType with
    | None, Some t => find (fun meta => bool_decide (type meta = Some t)) fieldMetas
    | _, _ => candidate
    end in
  id <$> candidate.

(** [FIELD_KEYS], in the order of the object literal. *)
Definition FIELD_KEYS : list (Key.t * (text * Z)) :=
  [ (Key.itemHeight, (utf16 "Item Height (inch)", 2));
    (Key.itemWidth, (utf16 "Item Width (inch)", 2));
    (Key.itemDepth, (utf16 "Item Depth (inch)", 2));
    (Key.itemWeight, (utf16 "Item Weight ( g )", 2));
    (Key.innerWidth, (utf16 "Inner Width (inch)", 2));
    (Key.innerDepth, (utf16 "Inner Depth (inch)", 2));
    (Key.innerHeight, (utf16 "Inner Height (inch)", 2));
    (Key.innerWeight, (utf16 "Inner Weight (lbs)", 2));
    (Key.innerQty, (utf16 "Inner Qty", 2));
    (Key.masterQty, (utf16 "Master Qty", 2));
    (Key.masterHeight, (utf16 "Master Height (inch)", 2));
    (Key.masterWidth, (utf16 "Master Width (inch)", 2));
    (Key.masterDepth, (utf16 "Master Depth (inch)", 2));
    (Key.grossWeight, (utf16 "G. W (lbs)", 2));
    (Key.netWeight, (utf16 "N.W. (kg)", 2)) ].

#[global] Instance Key_eq_dec : EqDecision Key.t.
Proof. solve_decision. Defined.

(** [object[key]] on a list of entries. *)
Fixpoint entry {B} (key : Key.t) (entries : list (Key.t * B)) : option B :=
  match entries with
  | [] => None
  | (k, v) :: entries' => if decide (k = key) then Some v else entry key entries'
  end.

(** The [entries] of [buildFieldMap]: for each key the id found, or [""]. *)
Definition fieldEntries (toLowerCase : text -> text) (fieldMetas : list FieldMetaLike)
    : list (Key.t * text) :=
  (fun e : Key.t * (text * Z) =>
     (e.1, default [] (getFieldIdByName toLowerCase fieldMetas e.2.1 (Some e.2.2))))
    <$> FIELD_KEYS.

(** [buildFieldMap]: the field ids by key ([""] for a key without field) and
    the names of the missing fields. *)
Definition buildFieldMap (toLowerCase : text -> text) (fieldMetas : list FieldMetaLike)
    : FieldIds * list text :=
  let entries := fieldEntries toLowerCase fieldMetas in
  let missingFields :=
    (fun e : Key.t * text => default [] (fst <$> entry e.1 FIELD_KEYS))
      <$> filter (fun e : Key.t * text => unset e.2 = true) entries in
  let fieldIds := fun key => default [] (entry key entries) in
  (fieldIds, missingFields).

(** [TableCandidate]; [T] and [V] are the table and view objects of the host.
    [recordCount] is the length of a list of ids or the count the host
    reports, an integer; a host reporting [NaN] is outside this embedding. *)
Record TableCandidate (T V : Type) := {
  table : T;
  view : option V;
  tableName : text;
  viewName : text;
  fieldIds : FieldIds;
  missingFields : list text;
  recordCount : Z }.

Arguments table {T V}.
Arguments view {T V}.
Arguments tableName {T V}.
Arguments viewName {T V}.
Arguments fieldIds {T V}.
Arguments missingFields {T V}.
Arguments recordCount {T V}.

(** The comparator of [selectBestCandidate]. *)
Definition compareCandidates {T V} (a b : TableCandidate T V) : Z :=
  let missingDiff :=
    Z.of_nat (length (missingFields a)) - Z.of_nat (length (missingFields b)) in
  if decide (missingDiff <> 0) then missingDiff
  else recordCount b - recordCount a.

(** [Array.prototype.sort] is stable, and with a consistent comparator its
    result is the stable sorted rearrangement; insertion from the right
    computes it. *)
Fixpoint insertSorted {A} (compareFn : A -> A -> Z) (x : A) (l : list A) : list A :=
  match l with
  | [] => [x]
  | y :: l' => if compareFn x y <=? 0 then x :: l else y :: insertSorted compareFn x l'
  end.

Definition sort {A} (compareFn : A -> A -> Z) (l : list A) : list A :=
  foldr (insertSorted compareFn) [] l.

Definition selectBestCandidate {T V} (candidates : list (TableCandidate T V))
    : option (TableCandidate T V) :=
  if decide (length candidates = 0%nat) then None
  else head (sort compareCandidates candidates).

(** [a] is at least as good a candidate as [b]: fewer missing fields, or as
    many and at least as many records. *)
Definition noWorse {T V} (a b : TableCandidate T V) : Prop :=
  (length (missingFields a) < length (missingFields b))%nat \/
  (length (missingFields a) = length (missingFields b) /\ recordCount b <= recordCount a).

Definition better {T V} (a b : TableCandidate T V) : Prop :=
  (length (missingFields a) < length (missingFields b))%nat \/
  (length (missingFields a) = length (missingFields b) /\ recordCount b < recordCount a).

End Fields.

(** ** The lines about missing base dimensions *)

Module DeadBranchesSpec.

Import Cascade.

(** An event other than the two lines about missing base dimensions. *)
Definition notMissingDimensions (e : event) : Prop :=
  match e with
  | Log (MissingInnerDimensions _) | Log (MissingItemDimensions _) => False
  | _ => True
  end.

End DeadBranchesSpec.

(** ** Further sample records *)

Module MoreSamples.

Import Cascade CascadeSamples Fields.

(** The state in which a run enters its loop. *)
Definition start (rows : gmap text Fields) : State (tableHost rows) :=
  Build_State (tableHost rows) tt [] 0 {| label_number := 0; label_display := [] |}.

(** A record without unit width. *)
Definition flatRecord : Fields :=
  list_to_map
    [ (utf16 "itemDepth", VNumber 1); (utf16 "itemHeight", VNumber 1);
      (utf16 "innerQty", VNumber 2); (utf16 "masterQty", VNumber 4) ].

(** A table with a text field and two number fields, one of them named as
    the plugin expects, up to case and spacing. *)
Definition sampleMetas : list FieldMetaLike :=
  [ {| id := utf16 "fld0"; name := utf16 "Item Code"; type := Some 1 |};
    {| id := utf16 "fld1"; name := utf16 "Remarks"; type := Some 2 |};
    {| id := utf16 "fld2"; name := utf16 "  inner   qty "; type := Some 2 |} ].

(** Lower case of ASCII letters. *)
Definition asciiLower (s : text) : text :=
  (fun c => if ((0x41 <=? c) && (c <=? 0x5A))%N then (c + 0x20)%N else c) <$> s.

(** A unit cube of 50 g, twelve to the master carton, without inner carton;
    and one whose inner quantity is no integer. *)
Definition looseRecord : Fields := cubeRecord (VNumber 50) (VNumber 0) (VNumber 12).

Definition brokenRecord : Fields := cubeRecord (VNumber 50) (VNumber 2.5) (VNumber 5).

End MoreSamples.

(** * Properties *)

(** ** The order of binary64 numbers *)

Module FloatOrderFacts.
Import FloatOrder.

Ltac cmp_cases :=
  repeat match goal with
  | |- context [(?a ?= ?b)%Z] => destruct (Z.compare_spec a b)
  | |- context [Pos.compare_cont Eq ?a ?b] =>
      change (Pos.compare_cont Eq a b) with (Pos.compare a b);
      destruct (Pos.compare_spec a b)
  end.

Lemma SFcompare_rank (a b : spec_float) :
  a <> S754_nan -> b <> S754_nan ->
  exists c, SFcompare a b = Some c /\
    (c = Lt <-> lexlt (rank a) (rank b)) /\
    (c = Gt <-> lexlt (rank b) (rank a)).
Proof.
  intros Ha Hb.
  destruct a as [sa|sa| |sa ma ea], b as [sb|sb| |sb mb eb]; try congruence;
    try destruct sa; try destruct sb; simpl; unfold lexlt; simpl;
    cmp_cases; simpl; eexists; (split; [reflexivity|]); split; split;
    intros; try reflexivity; try discriminate; try lia.
Qed.

Lemma ltb_lexlt (x y : float) :
  ~ isNaN x -> ~ isNaN y -> ((x <? y)%float = true <-> lexlt (key x) (key y)).
Proof.
  intros Hx Hy. rewrite FloatAxioms.ltb_spec. unfold SFltb, key.
  destruct (SFcompare_rank _ _ Hx Hy) as (c & -> & Hlt & _).
  rewrite <- Hlt. destruct c; split; congruence.
Qed.

Lemma leb_lexlt (x y : float) :
  ~ isNaN x -> ~ isNaN y -> ((x <=? y)%float = true <-> ~ lexlt (key y) (key x)).
Proof.
  intros Hx Hy. rewrite FloatAxioms.leb_spec. unfold SFleb, key.
  destruct (SFcompare_rank _ _ Hx Hy) as (c & -> & _ & Hgt).
  rewrite <- Hgt. destruct c; split; congruence.
Qed.

Lemma ltb_not_NaN (x y : float) : (x <? y)%float = true -> ~ isNaN x /\ ~ isNaN y.
Proof.
  rewrite FloatAxioms.ltb_spec. unfold SFltb, isNaN.
  destruct (Prim2SF x), (Prim2SF y); simpl; try discriminate; split; discriminate.
Qed.

Lemma ltb_trans (x y z : float) :
  (x <? y)%float = true -> (y <? z)%float = true -> (x <? z)%float = true.
Proof.
  intros Hxy Hyz.
  destruct (ltb_not_NaN _ _ Hxy) as [Hx Hy], (ltb_not_NaN _ _ Hyz) as [_ Hz].
  rewrite ltb_lexlt in * by assumption. unfold lexlt in *. lia.
Qed.

Lemma ltb_false_leb (x y : float) :
  ~ isNaN x -> ~ isNaN y -> (x <? y)%float = false -> (y <=? x)%float = true.
Proof.
  intros Hx Hy H. apply leb_lexlt; [assumption..|].
  intros Hl. apply ltb_lexlt in Hl; [congruence|assumption..].
Qed.

Lemma ltb_leb_trans (x y z : float) :
  (x <? y)%float = true -> (y <=? z)%float = true -> ~ isNaN z -> (x <? z)%float = true.
Proof.
  intros Hxy Hyz Hz. destruct (ltb_not_NaN _ _ Hxy) as [Hx Hy].
  rewrite leb_lexlt in Hyz by assumption.
  rewrite ltb_lexlt in * by assumption. unfold lexlt in *. lia.
Qed.

Lemma ltb_leb (x y : float) : (x <? y)%float = true -> (x <=? y)%float = true.
Proof.
  intros H. destruct (ltb_not_NaN _ _ H) as [Hx Hy].
  rewrite leb_lexlt by assumption. rewrite ltb_lexlt in H by assumption.
  unfold lexlt in *. lia.
Qed.

Lemma leb_refl (x : float) : ~ isNaN x -> (x <=? x)%float = true.
Proof. intros H. rewrite leb_lexlt by assumption. unfold lexlt. lia. Qed.

Lemma leb_trans (x y z : float) :
  ~ isNaN x -> ~ isNaN y -> ~ isNaN z ->
  (x <=? y)%float = true -> (y <=? z)%float = true -> (x <=? z)%float = true.
Proof.
  intros Hx Hy Hz. rewrite !leb_lexlt by assumption. unfold lexlt. lia.
Qed.

End FloatOrderFacts.

(** ** Signs of products and quotients *)

Module FloatSignFacts.
Import FloatSign.

Lemma shr_1_nonneg mrs : 0 <= shr_m mrs -> 0 <= shr_m (shr_1 mrs).
Proof.
  destruct mrs as [m r s]; simpl. destruct m as [|p|p]; simpl; try lia.
  - destruct p; simpl; lia.
Qed.

Lemma iter_shr_1_nonneg p : forall mrs,
  0 <= shr_m mrs -> 0 <= shr_m (SpecFloat.iter_pos shr_1 p mrs).
Proof.
  induction p as [p IH|p IH|]; intros mrs H; simpl.
  - apply IH, IH, shr_1_nonneg, H.
  - apply IH, IH, H.
  - apply shr_1_nonneg, H.
Qed.

Lemma shr_fexp_nonneg m e l :
  0 <= m -> 0 <= shr_m (shr_fexp prec emax m e l).1.
Proof.
  intros H. unfold shr_fexp, shr.
  assert (H0 : 0 <= shr_m (shr_record_of_loc m l)).
  { destruct l as [|[]]; simpl; exact H. }
  destruct (fexp prec emax (Zdigits2 m + e) - e); simpl; try exact H0.
  apply iter_shr_1_nonneg, H0.
Qed.

Lemma round_nearest_even_nonneg m l : 0 <= m -> 0 <= round_nearest_even m l.
Proof.
  intros H. destruct l as [|[]]; simpl; try lia. destruct (Z.even m); lia.
Qed.

Lemma binary_round_aux_nonneg mx ex lx :
  0 <= mx -> nonneg (binary_round_aux prec emax false mx ex lx).
Proof.
  intros H. unfold binary_round_aux.
  pose proof (shr_fexp_nonneg mx ex lx H) as H1.
  destruct (shr_fexp prec emax mx ex lx) as [mrs' e']. simpl in H1.
  pose proof (shr_fexp_nonneg _ e' loc_Exact
                (round_nearest_even_nonneg _ (loc_of_shr_record mrs') H1)) as H2.
  destruct (shr_fexp prec emax _ e' loc_Exact) as [mrs'' e'']. simpl in H2.
  destruct (shr_m mrs'') as [|m|m]; simpl; try reflexivity; try lia.
  destruct (e'' <=? emax - prec); reflexivity.
Qed.

Lemma SFmul_nonneg x y :
  nonneg x -> positiveFinite y -> nonneg (SF64mul x y).
Proof.
  destruct x as [sx|sx| |sx mx ex], y as [sy|sy| |[] my ey]; simpl; try tauto;
    intros -> _; try reflexivity.
  apply binary_round_aux_nonneg. lia.
Qed.

Lemma SFdiv_nonneg x y :
  nonneg x -> positiveFinite y -> nonneg (SF64div x y).
Proof.
  destruct x as [sx|sx| |sx mx ex], y as [sy|sy| |[] my ey]; simpl; try tauto;
    intros -> _; try reflexivity.
  unfold SFdiv_core_binary.
  set (s := _ - _ - _).
  set (m' := match s with Z0 => _ | Z.pos _ => _ | Z.neg _ => _ end).
  assert (Hm : 0 <= m').
  { subst m'. destruct s; try lia. apply Z.shiftl_nonneg. lia. }
  pose proof (Z.div_pos m' (Z.pos my) Hm ltac:(lia)) as Hq.
  unfold Z.div in Hq. destruct (Z.div_eucl m' (Z.pos my)) as [q r]. simpl in Hq.
  apply binary_round_aux_nonneg, Hq.
Qed.

Lemma positiveFinite_nonneg x : positiveFinite x -> nonneg x.
Proof. destruct x as [| | |[]]; simpl; tauto. Qed.

Lemma nonneg_not_nan x : nonneg x -> x <> S754_nan.
Proof. destruct x; simpl; congruence || tauto. Qed.

(** A number that passes [Number.isFinite(v) && !(v <= 0)]. *)
Lemma finite_positive (v : float) :
  is_finite v = true -> (v <=? 0)%float = false -> positiveFinite (Prim2SF v).
Proof.
  unfold is_finite, is_nan, is_infinity.
  rewrite FloatAxioms.leb_spec, !FloatAxioms.eqb_spec, abs_spec.
  change (Prim2SF 0) with (S754_zero false).
  change (Prim2SF infinity) with (S754_infinity false).
  destruct (Prim2SF v) as [s|s| |[] m e]; simpl; try discriminate; try tauto;
    destruct s; discriminate.
Qed.

Lemma cubeFeet_not_nan (w d h : float) :
  positiveFinite (Prim2SF w) -> positiveFinite (Prim2SF d) ->
  positiveFinite (Prim2SF h) ->
  Prim2SF (w * d * h / 1728)%float <> S754_nan.
Proof.
  intros Hw Hd Hh. apply nonneg_not_nan.
  rewrite div_spec, !mul_spec.
  apply SFdiv_nonneg; [|vm_compute; exact I].
  apply SFmul_nonneg; [|exact Hh].
  apply SFmul_nonneg; [|exact Hd].
  apply positiveFinite_nonneg, Hw.
Qed.

End FloatSignFacts.

(** ** The arrangement solver *)

Module ArrangementFacts.

Import Arrangement ArrangementSpec FloatOrder FloatOrderFacts FloatSign FloatSignFacts.

Lemma foldl_invariant {A B} (P : B -> Prop) (f : B -> A -> B) (l : list A) :
  forall b, P b -> (forall b a, a ∈ l -> P b -> P (f b a)) -> P (foldl f b l).
Proof.
  induction l as [|x l IH]; intros b Hb Hstep; simpl; [exact Hb|].
  apply IH.
  - apply Hstep; [left|exact Hb].
  - intros b' a Ha. apply Hstep. right. exact Ha.
Qed.

Lemma pushUnique_synced st t : synced st -> synced (pushUnique st t).
Proof.
  intros H u. unfold pushUnique. destruct (decide (t ∈ st.1)); [apply H|].
  simpl. rewrite elem_of_union, elem_of_singleton, elem_of_app, list_elem_of_singleton.
  rewrite (H u). tauto.
Qed.

Lemma pushUnique_mono st t u : u ∈ st.2 -> u ∈ (pushUnique st t).2.
Proof.
  unfold pushUnique. destruct (decide (t ∈ st.1)); [tauto|].
  simpl. rewrite elem_of_app. tauto.
Qed.

Lemma pushUnique_adds st t : synced st -> t ∈ (pushUnique st t).2.
Proof.
  intros H. unfold pushUnique. destruct (decide (t ∈ st.1)) as [Hin|Hin].
  - apply H, Hin.
  - simpl. rewrite elem_of_app, list_elem_of_singleton. tauto.
Qed.

Lemma pushUnique_elem st t u :
  u ∈ (pushUnique st t).2 -> u ∈ st.2 \/ u = t.
Proof.
  unfold pushUnique. destruct (decide (t ∈ st.1)); [tauto|].
  simpl. rewrite elem_of_app, list_elem_of_singleton. tauto.
Qed.

Lemma foldl_pushUnique_synced l st : synced st -> synced (foldl pushUnique st l).
Proof. intros H. apply foldl_invariant; [exact H|]. intros; by apply pushUnique_synced. Qed.

Lemma foldl_pushUnique_mono l st u : u ∈ st.2 -> u ∈ (foldl pushUnique st l).2.
Proof.
  intros H. apply (foldl_invariant (fun st => u ∈ st.2)); [exact H|].
  intros; by apply pushUnique_mono.
Qed.

Lemma foldl_pushUnique_elem l : forall st u,
  u ∈ (foldl pushUnique st l).2 -> u ∈ st.2 \/ u ∈ l.
Proof.
  induction l as [|t l IH]; intros st u H; simpl in *; [tauto|].
  destruct (IH _ _ H) as [H1|H1].
  - destruct (pushUnique_elem _ _ _ H1) as [H2| ->]; [tauto|]. right; left.
  - right; by right.
Qed.

Lemma foldl_pushUnique_adds l : forall st u,
  synced st -> u ∈ l -> u ∈ (foldl pushUnique st l).2.
Proof.
  induction l as [|t l IH]; intros st u Hs Hu; simpl.
  - by apply elem_of_nil in Hu.
  - apply elem_of_cons in Hu as [->|Hu].
    + apply foldl_pushUnique_mono, pushUnique_adds, Hs.
    + apply IH; [by apply pushUnique_synced|exact Hu].
Qed.

Lemma synced_empty : synced (∅, []).
Proof. intros t; simpl. rewrite elem_of_empty, elem_of_nil. tauto. Qed.

(** [uniquePermutations] returns rearrangements of its argument, the
    argument itself among them. *)
Lemma uniquePermutations_elem a b c u :
  u ∈ uniquePermutations (a, b, c) ->
  u ∈ [(a, b, c); (a, c, b); (b, a, c); (b, c, a); (c, a, b); (c, b, a)].
Proof.
  unfold uniquePermutations. intros H.
  apply foldl_pushUnique_elem in H as [H|H]; [|exact H].
  simpl in H. by apply elem_of_nil in H.
Qed.

Lemma uniquePermutations_self t : t ∈ uniquePermutations t.
Proof.
  destruct t as [[a b] c]. unfold uniquePermutations.
  apply foldl_pushUnique_adds; [apply synced_empty|left].
Qed.

Lemma factorTriple_permutation n a b c u :
  factorTriple n (a, b, c) -> u ∈ uniquePermutations (a, b, c) -> factorTriple n u.
Proof.
  intros (Ha & Hb & Hc & Hn) Hu. cbn [fst snd] in Ha, Hb, Hc, Hn.
  apply uniquePermutations_elem in Hu.
  repeat (apply elem_of_cons in Hu as [->|Hu]); try (by apply elem_of_nil in Hu);
    unfold factorTriple; cbn [fst snd]; repeat split; lia.
Qed.

Lemma stepB_sound n a quotient st b :
  0 < a -> a * quotient = n -> 0 < quotient -> 0 < b ->
  sound n st -> sound n (stepB a quotient st b).
Proof.
  intros Ha Hn Hq Hb Hst. unfold stepB.
  destruct (decide (quotient `mod` b ≠ 0)) as [|Hmod]; [exact Hst|].
  assert (Hdiv : quotient = b * (quotient `div` b)).
  { pose proof (Z.div_mod quotient b). lia. }
  assert (0 < quotient `div` b) by nia.
  intros t Ht. apply foldl_pushUnique_elem in Ht as [Ht|Ht]; [by apply Hst|].
  eapply factorTriple_permutation; [|exact Ht].
  unfold factorTriple; cbn [fst snd]. repeat split; first [lia | rewrite <- Hn; nia].
Qed.

Lemma stepA_sound n st a :
  0 < n -> 0 < a -> sound n st -> sound n (stepA n st a).
Proof.
  intros Hn Ha Hst. unfold stepA.
  destruct (decide (n `mod` a ≠ 0)) as [|Hmod]; [exact Hst|].
  assert (Hdiv : n = a * (n `div` a)).
  { pose proof (Z.div_mod n a). lia. }
  assert (0 < n `div` a) by nia.
  apply (foldl_invariant (sound n)); [exact Hst|].
  intros st' b Hb Hst'. apply elem_of_seqZ in Hb.
  apply stepB_sound; try lia. exact Hst'.
Qed.

Lemma generateFactorTriples_sound quantity t :
  t ∈ generateFactorTriples quantity -> factorTriple (Z.abs quantity) t.
Proof.
  unfold generateFactorTriples.
  destruct (decide (Z.abs quantity ≤ 0)) as [|Hpos]; [intros H; by apply elem_of_nil in H|].
  revert t. change (sound (Z.abs quantity)
    (foldl (stepA (Z.abs quantity)) (∅, []) (seqZ 1 (Z.abs quantity)))).
  apply (foldl_invariant (sound (Z.abs quantity))).
  - intros t Ht. by apply elem_of_nil in Ht.
  - intros st a Ha Hst. apply elem_of_seqZ in Ha. apply stepA_sound; try lia. exact Hst.
Qed.

Lemma foldl_reaches {A B} (I P : B -> Prop) (f : B -> A -> B) (x : A) (l : list A) :
  x ∈ l ->
  (forall b a, I b -> I (f b a)) ->
  (forall b a, P b -> P (f b a)) ->
  (forall b, I b -> P (f b x)) ->
  forall b, I b -> P (foldl f b l).
Proof.
  intros Hx HI HP Hadd. induction l as [|y l IH]; intros b Hb; simpl.
  - by apply elem_of_nil in Hx.
  - apply elem_of_cons in Hx as [<-|Hx].
    + apply foldl_invariant; [by apply Hadd|]. intros; by apply HP.
    + apply IH; [exact Hx|by apply HI].
Qed.

Lemma stepB_synced a quotient st b : synced st -> synced (stepB a quotient st b).
Proof.
  intros H. unfold stepB. destruct (decide _); [exact H|].
  by apply foldl_pushUnique_synced.
Qed.

Lemma stepB_mono a quotient st b u : u ∈ st.2 -> u ∈ (stepB a quotient st b).2.
Proof.
  intros H. unfold stepB. destruct (decide _); [exact H|].
  by apply foldl_pushUnique_mono.
Qed.

Lemma stepA_synced n st a : synced st -> synced (stepA n st a).
Proof.
  intros H. unfold stepA. destruct (decide _); [exact H|].
  apply foldl_invariant; [exact H|]. intros; by apply stepB_synced.
Qed.

Lemma stepA_mono n st a u : u ∈ st.2 -> u ∈ (stepA n st a).2.
Proof.
  intros H. unfold stepA. destruct (decide _); [exact H|].
  apply (foldl_invariant (fun st => u ∈ st.2)); [exact H|].
  intros; by apply stepB_mono.
Qed.

(** Every ordered factor triple is enumerated. *)
Lemma generateFactorTriples_complete quantity t :
  factorTriple (Z.abs quantity) t -> t ∈ generateFactorTriples quantity.
Proof.
  destruct t as [[a b] c]. intros (Ha & Hb & Hc & Hn). cbn [fst snd] in Ha, Hb, Hc, Hn.
  unfold generateFactorTriples. set (n := Z.abs quantity) in *.
  assert (Hbc : 0 < b * c) by nia.
  destruct (decide (n ≤ 0)) as [Hle|_]; [nia|].
  assert (Hqa : n `div` a = b * c).
  { symmetry. apply Z.div_unique_exact; lia. }
  assert (Hma : n `mod` a = 0).
  { rewrite Z.mod_divide by lia. exists (b * c); lia. }
  assert (Hqb : (b * c) `div` b = c).
  { symmetry. apply Z.div_unique_exact; lia. }
  assert (Hmb : (b * c) `mod` b = 0).
  { rewrite Z.mod_divide by lia. exists c; lia. }
  apply (foldl_reaches synced (fun st => (a, b, c) ∈ st.2) (stepA n) a).
  - apply elem_of_seqZ. nia.
  - intros; by apply stepA_synced.
  - intros; by apply stepA_mono.
  - intros st Hst. unfold stepA. rewrite Hqa.
    destruct (decide (n `mod` a ≠ 0)) as [Hne|_]; [congruence|].
    apply (foldl_reaches synced (fun st => (a, b, c) ∈ st.2) (stepB a (b * c)) b).
    + apply elem_of_seqZ. nia.
    + intros; by apply stepB_synced.
    + intros; by apply stepB_mono.
    + intros st' Hst'. unfold stepB. rewrite Hqb.
      destruct (decide ((b * c) `mod` b ≠ 0)) as [Hne|_]; [congruence|].
      apply foldl_pushUnique_adds; [exact Hst'|apply uniquePermutations_self].
    + exact Hst.
  - apply synced_empty.
Qed.

(** *** The search loop *)

Lemma evaluate_inv dims buf t c :
  evaluate dims buf t = Some c ->
  counts c = t /\
  positiveFinite (Prim2SF (width c)) /\ positiveFinite (Prim2SF (depth c)) /\
  positiveFinite (Prim2SF (height c)) /\
  cubeFeet c = (width c * depth c * height c / 1728)%float.
Proof.
  destruct t as [[cw cd] ch]. unfold evaluate. cbn [existsb].
  set (w := (JS.of_Z cw * in_width dims + buf)%float).
  set (d := (JS.of_Z cd * in_depth dims + buf)%float).
  set (h := (JS.of_Z ch * in_height dims + buf)%float).
  destruct (negb (JS.Number_isFinite w) || (w <=? 0)%float) eqn:Ew; [discriminate|].
  destruct (negb (JS.Number_isFinite d) || (d <=? 0)%float) eqn:Ed; [discriminate|].
  destruct (negb (JS.Number_isFinite h) || (h <=? 0)%float) eqn:Eh; [discriminate|].
  cbn [orb]. intros [= <-]. cbn.
  apply orb_false_elim in Ew as [Ew1 Ew2], Ed as [Ed1 Ed2], Eh as [Eh1 Eh2].
  apply negb_false_iff in Ew1, Ed1, Eh1.
  repeat split; by apply finite_positive.
Qed.

Lemma evaluate_not_nan dims buf t c :
  evaluate dims buf t = Some c -> ~ isNaN (cubeFeet c).
Proof.
  intros H. apply evaluate_inv in H as (_ & Hw & Hd & Hh & ->).
  by apply cubeFeet_not_nan.
Qed.

Lemma foldl_searchStep dims buf triples : forall best,
  foldl (searchStep dims buf) best triples
  = foldl keepBest best (omap (evaluate dims buf) triples).
Proof.
  induction triples as [|t l IH]; intros best; [reflexivity|].
  cbn [foldl]. rewrite IH. unfold searchStep. cbn [omap list_omap].
  destruct (evaluate dims buf t); reflexivity.
Qed.

Lemma foldl_keepBest_Some cs : forall b, is_Some (foldl keepBest (Some b) cs).
Proof.
  induction cs as [|c cs IH]; intros b; cbn [foldl]; [by eexists|].
  unfold keepBest at 2. destruct (cubeFeet c <? cubeFeet b)%float; apply IH.
Qed.

Lemma foldl_keepBest_None cs : foldl keepBest None cs = None -> cs = [].
Proof.
  destruct cs as [|c cs]; [reflexivity|]. cbn [foldl keepBest]. intros H.
  destruct (foldl_keepBest_Some cs c) as [r Hr]. congruence.
Qed.

(** The loop keeps the first candidate of least volume. *)
Lemma keepBest_selects cs : forall r,
  (forall c, c ∈ cs -> ~ isNaN (cubeFeet c)) ->
  foldl keepBest None cs = Some r ->
  exists i : nat, cs !! i = Some r /\
    (forall c, c ∈ cs -> (cubeFeet r <=? cubeFeet c)%float = true) /\
    (forall (j : nat) c, (j < i)%nat -> cs !! j = Some c ->
       (cubeFeet r <? cubeFeet c)%float = true).
Proof.
  induction cs as [|x l IH] using rev_ind; intros r Hnan; [discriminate|].
  rewrite foldl_app. cbn [foldl].
  assert (Hl : forall c, c ∈ l -> ~ isNaN (cubeFeet c)).
  { intros c Hc. apply Hnan, elem_of_app. by left. }
  assert (Hx : ~ isNaN (cubeFeet x)).
  { apply Hnan, elem_of_app. right. apply list_elem_of_singleton. reflexivity. }
  destruct (foldl keepBest None l) as [b|] eqn:E.
  - destruct (IH b Hl eq_refl) as (i & Hi & Hmin & Hfirst).
    assert (Hb : ~ isNaN (cubeFeet b)).
    { apply Hl. eapply list_elem_of_lookup_2. exact Hi. }
    cbn [keepBest]. destruct (cubeFeet x <? cubeFeet b)%float eqn:Elt; intros [= <-].
    + exists (length l). split; [|split].
      * by rewrite lookup_app_r, Nat.sub_diag by lia.
      * intros c Hc. apply elem_of_app in Hc as [Hc|Hc].
        -- apply ltb_leb. eapply ltb_leb_trans; [exact Elt|by apply Hmin|by apply Hl].
        -- apply list_elem_of_singleton in Hc as ->. by apply leb_refl.
      * intros j c Hj Hc. rewrite lookup_app_l in Hc by exact Hj.
        eapply ltb_leb_trans; [exact Elt| |].
        -- apply Hmin. eapply list_elem_of_lookup_2. exact Hc.
        -- apply Hl. eapply list_elem_of_lookup_2. exact Hc.
    + exists i. pose proof (lookup_lt_Some _ _ _ Hi) as Hlen. split; [|split].
      * by rewrite lookup_app_l.
      * intros c Hc. apply elem_of_app in Hc as [Hc|Hc]; [by apply Hmin|].
        apply list_elem_of_singleton in Hc as ->. by apply ltb_false_leb.
      * intros j c Hj Hc. rewrite lookup_app_l in Hc by lia. by eapply Hfirst.
  - apply foldl_keepBest_None in E as ->. cbn. intros [= <-].
    exists 0%nat. split; [reflexivity|]. split.
    + intros c Hc. apply list_elem_of_singleton in Hc as ->. by apply leb_refl.
    + intros j c Hj. lia.
Qed.

Lemma candidates_elem q dims buf c :
  c ∈ candidates q dims buf <->
  exists t, t ∈ generateFactorTriples q /\ evaluate dims buf t = Some c.
Proof. unfold candidates. apply list_elem_of_omap. Qed.

Lemma computeBestArrangement_fold q dims buf :
  computeBestArrangement q dims buf = foldl keepBest None (candidates q dims buf).
Proof.
  unfold computeBestArrangement, candidates.
  destruct (decide (length (generateFactorTriples q) = 0%nat)) as [H|H].
  - apply nil_length_inv in H. rewrite H. reflexivity.
  - apply foldl_searchStep.
Qed.

(** *** The claims on the arrangement solver *)

(** C1. For every positive integer quantity [q] and all unit dimensions and
    buffer for which [computeBestArrangement] returns a result, the returned
    counts are positive integers whose product is [q]. *)
Theorem counts_product (q : Z) (dims : ArrangementInput) (buf : float)
    (r : ArrangementResult) :
  0 < q -> computeBestArrangement q dims buf = Some r ->
  factorTriple q (counts r).
Proof.
  intros Hq H. rewrite computeBestArrangement_fold in H.
  destruct (keepBest_selects (candidates q dims buf) r) as (i & Hi & _).
  - intros c Hc. apply candidates_elem in Hc as (t & _ & Ht).
    by eapply evaluate_not_nan.
  - exact H.
  - apply list_elem_of_lookup_2, candidates_elem in Hi as (t & Ht & Hev).
    apply evaluate_inv in Hev as (-> & _).
    apply generateFactorTriples_sound in Ht.
    by rewrite Z.abs_eq in Ht by lia.
Qed.

Lemma counts_product_witness : factorTriple 8 (counts row8).
Proof.
  apply (counts_product 8 dims211 0%float row8); [lia|vm_compute; reflexivity].
Defined.



(** C3, as the specification words it, fails: a negative quantity is
    replaced by its absolute value, and the solver answers for it. *)
Lemma negative_quantity_answered :
  ~ (forall (q : Z) dims buf, q <= 0 -> computeBestArrangement q dims buf = None).
Proof.
  intros H. specialize (H (-8) dims211 0%float ltac:(lia)).
  vm_compute in H. discriminate.
Qed.

Lemma generateFactorTriples_opp q :
  generateFactorTriples (- q) = generateFactorTriples q.
Proof. unfold generateFactorTriples. by rewrite Z.abs_opp. Qed.

(** C3, amended.  [computeBestArrangement] returns none for the quantity 0;
    for a negative quantity it returns what it returns for the absolute
    value; and it returns none exactly when no candidate survives the
    positivity/finiteness filter. *)
Theorem none_for_zero_abs_for_negative (dims : ArrangementInput) (buf : float) :
  computeBestArrangement 0 dims buf = None /\
  (forall q, computeBestArrangement (- q) dims buf = computeBestArrangement q dims buf) /\
  (forall q, computeBestArrangement q dims buf = None <-> candidates q dims buf = []).
Proof.
  split; [reflexivity|]. split.
  - intros q. unfold computeBestArrangement. by rewrite generateFactorTriples_opp.
  - intros q. rewrite computeBestArrangement_fold. split.
    + apply foldl_keepBest_None.
    + by intros ->.
Qed.

(** C4, as the specification words it, fails: all arrangements of eight
    2 x 1 x 1 units have the same volume without buffer, and the first one met
    is the row (1,1,8), not the block (2,2,2). *)
Lemma block8_not_returned :
  counts <$> computeBestArrangement 8 dims211 0%float <> Some (2, 2, 2).
Proof. vm_compute. discriminate. Qed.

(** C4, amended.  For quantity 8, unit dimensions 2 x 1 x 1 and buffer 0
    every factor triple gives the same volume 16/1728 cubic feet, and the
    solver returns the first one enumerated: the counts (1,1,8) with outer
    dimensions (2,1,8) and volume 16/1728; the counts (2,2,2) give the outer
    dimensions (4,2,2) and the same volume. *)
Theorem row8_returned :
  (forall t, factorTriple 8 t ->
     exists r, evaluate dims211 0%float t = Some r /\
               cubeFeet r = (16 / 1728)%float) /\
  head (generateFactorTriples 8) = Some (1, 1, 8) /\
  head (candidates 8 dims211 0%float) = Some row8 /\
  computeBestArrangement 8 dims211 0%float = Some row8 /\
  evaluate dims211 0%float (2, 2, 2) = Some block8 /\
  cubeFeet block8 = cubeFeet row8.
Proof.
  split; [|vm_compute; repeat split; reflexivity].
  intros t Ht. apply (generateFactorTriples_complete 8) in Ht.
  assert (Hall : Forall (fun t => exists r, evaluate dims211 0%float t = Some r /\
                                            cubeFeet r = (16 / 1728)%float)
                   (generateFactorTriples 8)).
  { set (triples := generateFactorTriples 8). vm_compute in triples. subst triples.
    repeat (constructor; [eexists; split; vm_compute; reflexivity|]). constructor. }
  rewrite Forall_forall in Hall. by apply Hall.
Qed.

End ArrangementFacts.

(** ** The number helpers *)

Module NumbersFacts.

Import Value Numbers NumbersSpec Cascade.

Lemma trimStart_blank s : blank s -> trimStart s = [].
Proof. induction 1 as [|c s Hc _ IH]; [reflexivity|]. cbn. by rewrite Hc. Qed.

Lemma trim_blank s : blank s -> trim s = [].
Proof. intros H. unfold trim. by rewrite (trimStart_blank s H). Qed.

(** C10. For the empty string and for every string of white space only,
    [extractNumber] returns the number 0, not none; so the cascade, which
    reads its quantities through [fetchValue], gets a present zero for a
    configured field that holds such a string. *)
Theorem blank_string_is_zero (host : Host) (fieldIds : FieldIds) (fields : Fields)
    (key : Key.t) (s : text) :
  blank s ->
  extractNumber (StrNumericLiteral host) (VString s) = Some 0%float /\
  (unset (fieldIds key) = false -> fields !! fieldIds key = Some (VString s) ->
   fetchValue host fieldIds fields key = Some 0%float).
Proof.
  intros H.
  assert (E : extractNumber (StrNumericLiteral host) (VString s) = Some 0%float).
  { cbn. unfold StringToNumber. by rewrite (trim_blank s H). }
  split; [exact E|]. intros Hset Hcell. unfold fetchValue, cell.
  by rewrite Hset, Hcell.
Qed.

Lemma blank_string_is_zero_witness :
  extractNumber (StrNumericLiteral (CascadeSamples.tableHost ∅)) (VString [32; 9]%N)
  = Some 0%float /\
  (unset (CascadeSamples.allFields Key.innerQty) = false ->
   CascadeSamples.cubeRecord (VNumber 50) (VString [32; 9]%N) (VNumber 12)
     !! CascadeSamples.allFields Key.innerQty = Some (VString [32; 9]%N) ->
   fetchValue (CascadeSamples.tableHost ∅) CascadeSamples.allFields
     (CascadeSamples.cubeRecord (VNumber 50) (VString [32; 9]%N) (VNumber 12))
     Key.innerQty = Some 0%float).
Proof.
  apply (blank_string_is_zero (CascadeSamples.tableHost ∅) CascadeSamples.allFields
           (CascadeSamples.cubeRecord (VNumber 50) (VString [32; 9]%N) (VNumber 12))
           Key.innerQty [32; 9]%N).
  repeat constructor.
Defined.

(** C7, as the specification words it, fails: on the negative half -2.5
    [round] gives -2, where rounding halves away from zero gives -3. *)
Lemma negative_half_not_away_from_zero :
  ~ (forall x v d, JS.fraction x = Some (v, d) ->
       JS.to_Z (round x 0) = roundHalfAwayFromZero v d 0).
Proof.
  intros H.
  specialize (H (-2.5)%float (-5629499534213120) (2 ^ 51) ltac:(vm_compute; reflexivity)).
  vm_compute in H. discriminate.
Qed.

Lemma halvesGoUp_checked : forallb halvesGoUp (seqZ 0 4096) = true.
Proof. vm_compute. reflexivity. Qed.

(** C7, amended.  [round] is [Math.round((value + Number.EPSILON) * 10^digits)
    / 10^digits], and [Math.round] takes halves towards +Infinity.  So
    round(2.005, 2) == 2.01 and round(1.005, 2) == 1.01; a positive half
    [k + 0.5] is rounded to [k + 1], away from zero, but a negative half
    [-(k + 0.5)] is rounded to [-k], towards zero (for the integers
    0 <= k < 4096), as in round(-2.5, 0) == -2 and round(-2.005, 2) == -2; and
    the nudge lifts 0.49999999999999994, which is below one half, to 1. *)
Theorem round_takes_halves_up (k : Z) :
  0 <= k < 4096 ->
  halvesGoUp k = true /\
  (round 2.005 2 =? 2.01)%float = true /\
  (round 1.005 2 =? 1.01)%float = true /\
  (round (-2.5) 0 =? -2)%float = true /\
  (round (-2.005) 2 =? -2)%float = true /\
  (round 0.49999999999999994 0 =? 1)%float = true.
Proof.
  intros Hk. split; [|vm_compute; repeat split; reflexivity].
  pose proof halvesGoUp_checked as H.
  rewrite forallb_forall in H. apply H, list_elem_of_In, elem_of_seqZ. lia.
Qed.

Lemma round_takes_halves_up_witness :
  halvesGoUp 2 = true /\
  (round 2.005 2 =? 2.01)%float = true /\
  (round 1.005 2 =? 1.01)%float = true /\
  (round (-2.5) 0 =? -2)%float = true /\
  (round (-2.005) 2 =? -2)%float = true /\
  (round 0.49999999999999994 0 =? 1)%float = true.
Proof. apply (round_takes_halves_up 2). lia. Defined.

End NumbersFacts.

(** ** The packing cascade *)

Module CascadeFacts.

Import Cascade CascadeSpec CascadeSamples.
#[local] Open Scope cascade_scope.

Section Stretches.

Context {host : Host}.

Lemma appended_refl (s : State host) : appended s s.
Proof. exists []. by rewrite app_nil_r. Qed.

Lemma appended_trans (s1 s2 s3 : State host) :
  appended s1 s2 -> appended s2 s3 -> appended s1 s3.
Proof.
  intros (n1 & H1 & F1) (n2 & H2 & F2). exists (n1 ++ n2). split.
  - by rewrite H2, H1, app_assoc.
  - by apply Forall_app.
Qed.

Lemma appended_one (s : State host) e w p l :
  isFailed e = false ->
  appended s {| world := w; trace := trace s ++ [e]; processed := p; label := l |}.
Proof. intros H. exists [e]. split; [reflexivity|]. by constructor. Qed.

Lemma appended_same (s : State host) w p l :
  appended s {| world := w; trace := trace s; processed := p; label := l |}.
Proof. exists []. cbn. by rewrite app_nil_r. Qed.

Lemma stretch_ret {A} (a : A) : stretch (@ret host A a).
Proof. intros s. split; [apply appended_refl|reflexivity]. Qed.

Lemma stretch_bind {A B} (m : M host A) (k : A -> M host B) :
  stretch m -> (forall a, stretch (k a)) -> stretch (bind m k).
Proof.
  intros Hm Hk s. unfold bind. destruct (Hm s) as [Ha Hp].
  destruct (m s) as [[a| |e] s1]; cbn in *; [|by split..].
  destruct (Hk a s1) as [Ha' Hp']. split.
  - by eapply appended_trans.
  - rewrite Hp'. by rewrite Hp.
Qed.

Lemma stretch_emit e : isFailed e = false -> stretch (@emit host e).
Proof. intros H s. split; [by apply appended_one|reflexivity]. Qed.

Lemma stretch_onLog m :
  match m with Failed _ _ => False | _ => True end -> stretch (@onLog host m).
Proof. intros H. apply stretch_emit. by destruct m. Qed.

Lemma stretch_logError c : stretch (@logError host c).
Proof. by apply stretch_emit. Qed.

Lemma stretch_setLabel l : stretch (@setLabel host l).
Proof. intros s. split; [apply appended_same|reflexivity]. Qed.

Lemma stretch_getRecord recordId : stretch (@getRecord host recordId).
Proof.
  intros s. unfold getRecord.
  destruct (getRecordById host recordId (world s)) as [[e|fields] w]; cbn;
    (split; [apply appended_same|reflexivity]).
Qed.

Lemma stretch_issue fieldId recordId v : stretch (@issue host fieldId recordId v).
Proof.
  intros s. unfold issue.
  destruct (setCellValue host fieldId recordId v (world s)) as [r w]; cbn.
  split; [by apply appended_one|reflexivity].
Qed.

Lemma stretch_awaitAll promises : stretch (@awaitAll host promises).
Proof.
  unfold awaitAll. destruct (omap id promises); [apply stretch_ret|].
  intros s. split; [apply appended_refl|reflexivity].
Qed.

Lemma stretch_warnCasePack : stretch (@warnCasePack host).
Proof.
  intros s. unfold warnCasePack.
  destruct (showToast host (world s)) as [[e|] w]; cbn.
  - split; [|reflexivity]. exists [ShowToast; LogError "toast"]. cbn.
    split; [by rewrite <- app_assoc|by repeat constructor].
  - split; [by apply appended_one|reflexivity].
Qed.

(** [processed += 1; continue;] *)
Lemma stretch_skip {A} : stretch (countProcessed ;; @continue_ host A).
Proof. intros s. split; [apply appended_same|reflexivity]. Qed.

Lemma closing_skip {A} : closing (countProcessed ;; @continue_ host A).
Proof. intros s. split; [apply appended_same|reflexivity]. Qed.

Lemma closing_countProcessed : closing (@countProcessed host).
Proof. intros s. split; [apply appended_same|reflexivity]. Qed.

Lemma closing_bind {A B} (m : M host A) (k : A -> M host B) :
  stretch m -> (forall a, closing (k a)) -> closing (bind m k).
Proof.
  intros Hm Hk s. unfold bind. destruct (Hm s) as [Ha Hp].
  destruct (m s) as [[a| |e] s1]; cbn in *; [|by split..].
  destruct (Hk a s1) as [Ha' Hp']. split.
  - by eapply appended_trans.
  - rewrite Hp'. by rewrite Hp.
Qed.

End Stretches.

Ltac stretch_step :=
  first
    [ apply stretch_ret | apply stretch_skip | apply stretch_setLabel
    | apply stretch_getRecord | apply stretch_issue | apply stretch_awaitAll
    | apply stretch_warnCasePack | apply stretch_logError
    | apply stretch_onLog; exact I
    | apply stretch_bind; [|intros]
    | match goal with
      | |- stretch (if ?b then _ else _) => destruct b
      | |- stretch (match ?x with _ => _ end) => destruct x
      end ].

Ltac closing_step :=
  first
    [ apply closing_skip | apply closing_countProcessed
    | apply closing_bind; [|intros]
    | match goal with
      | |- closing (if ?b then _ else _) => destruct b
      | |- closing (match ?x with _ => _ end) => destruct x
      end ].


(** *** Every record that does not throw is counted once *)

Section Accounting.

Context (host : Host) (fieldIds : FieldIds) (options : CalculationOptions).

Lemma failures_app (t u : list event) : failures (t ++ u) = (failures t + failures u)%nat.
Proof. unfold failures. by rewrite filter_app, length_app. Qed.

Lemma failures_clean (new : list event) :
  Forall (fun e => isFailed e = false) new -> failures new = 0%nat.
Proof.
  unfold failures. induction 1 as [|e l He _ IH]; [reflexivity|].
  rewrite filter_cons_False; [exact IH|congruence].
Qed.

Lemma appended_failures (s s' : State host) :
  appended s s' -> failures (trace s') = failures (trace s).
Proof.
  intros (new & -> & Hnew). rewrite failures_app, (failures_clean new Hnew). lia.
Qed.

(** What one round of the loop does to the two tallies, for a loop body
    that runs to the end of the [try] block. *)
Lemma catch_tally (body : M host unit) (s : State host) :
  closing body ->
  let s' := match body s with
            | (Throw e, s1) =>
                ((logError "record-calc" ;; onLog (Failed (label s1) e)) s1).2
            | (_, s1) => s1
            end in
  (processed s' + failures (trace s') = S (processed s + failures (trace s)))%nat.
Proof.
  intros Hbody. destruct (Hbody s) as [Happ Hp].
  apply appended_failures in Happ.
  destruct (body s) as [[[]| |e] s1]; cbn [fst snd] in *; try lia.
  unfold bind, logError, onLog, emit. cbn [fst snd trace processed].
  rewrite !failures_app. change (failures [LogError "record-calc"]) with 0%nat.
  change (failures [Log (Failed (label s1) e)]) with 1%nat. lia.
Qed.

(** The revised cascade. *)

Lemma revised_pushIfSet key recordId v :
  stretch (CalculatorRevised.pushIfSet host fieldIds key recordId v).
Proof. unfold CalculatorRevised.pushIfSet. repeat stretch_step. Qed.

Lemma revised_clearKeys keys recordId :
  stretch (CalculatorRevised.clearKeys host fieldIds keys recordId).
Proof.
  induction keys as [|key keys IH]; cbn [CalculatorRevised.clearKeys].
  - apply stretch_ret.
  - apply stretch_bind; [apply revised_pushIfSet|intros].
    apply stretch_bind; [exact IH|intros]. apply stretch_ret.
Qed.

Lemma revised_clearInnerValues recordId :
  stretch (CalculatorRevised.clearInnerValues host fieldIds recordId).
Proof.
  unfold CalculatorRevised.clearInnerValues.
  apply stretch_bind; [apply revised_clearKeys|intros]. repeat stretch_step.
Qed.

Lemma revised_innerLevel recordId l innerQty w d h weight existing :
  stretch (CalculatorRevised.innerLevel host fieldIds options recordId l innerQty
             w d h weight existing).
Proof.
  unfold CalculatorRevised.innerLevel.
  repeat first [apply revised_pushIfSet | apply revised_clearInnerValues | stretch_step].
Qed.

Lemma revised_masterGate l masterQty :
  stretch (CalculatorRevised.masterGate host l masterQty).
Proof. unfold CalculatorRevised.masterGate. repeat stretch_step. Qed.

Lemma revised_pushMasterDimensions recordId arrangement :
  stretch (CalculatorRevised.pushMasterDimensions host fieldIds recordId arrangement).
Proof.
  unfold CalculatorRevised.pushMasterDimensions.
  repeat first [apply revised_pushIfSet | stretch_step].
Qed.

Lemma revised_masterLevel recordId l innerQty masterQty w d h ew ed eh inner :
  stretch (CalculatorRevised.masterLevel host fieldIds options recordId l innerQty
             masterQty w d h ew ed eh inner).
Proof.
  unfold CalculatorRevised.masterLevel.
  repeat first [apply revised_pushMasterDimensions | stretch_step].
Qed.

Lemma revised_netWeightStep recordId l masterQty weight :
  stretch (CalculatorRevised.netWeightStep host fieldIds recordId l masterQty weight).
Proof.
  unfold CalculatorRevised.netWeightStep.
  repeat first [apply revised_pushIfSet | stretch_step].
Qed.

Lemma revised_finish l arrangement kg updates :
  closing (CalculatorRevised.finish host fieldIds l arrangement kg updates).
Proof.
  unfold CalculatorRevised.finish.
  repeat first [closing_step | stretch_step].
Qed.

Lemma revised_processRecord index recordId :
  closing (CalculatorRevised.processRecord host fieldIds options index recordId).
Proof.
  unfold CalculatorRevised.processRecord.
  repeat first
    [ apply revised_finish | apply revised_innerLevel | apply revised_masterGate
    | apply revised_masterLevel | apply revised_netWeightStep
    | closing_step | stretch_step ].
Qed.

(** The cascade of [core/calculator.ts]. *)

Lemma calculator_innerLevel recordId l innerQty w d h weight :
  stretch (Calculator.innerLevel host fieldIds options recordId l innerQty w d h weight).
Proof. unfold Calculator.innerLevel. repeat stretch_step. Qed.

Lemma calculator_masterGate l masterQty : stretch (Calculator.masterGate host l masterQty).
Proof. unfold Calculator.masterGate. repeat stretch_step. Qed.

Lemma calculator_masterLevel l innerQty masterQty w d h weight ew ed eh elb inner lb :
  stretch (Calculator.masterLevel host options l innerQty masterQty w d h weight
             ew ed eh elb inner lb).
Proof. unfold Calculator.masterLevel. repeat stretch_step. Qed.

Lemma calculator_writeMaster recordId l arrangement kg :
  closing (Calculator.writeMaster host fieldIds recordId l arrangement kg).
Proof. unfold Calculator.writeMaster. repeat first [closing_step | stretch_step]. Qed.

Lemma calculator_processRecord index recordId :
  closing (Calculator.processRecord host fieldIds options index recordId).
Proof.
  unfold Calculator.processRecord.
  repeat first
    [ apply calculator_writeMaster | apply calculator_innerLevel
    | apply calculator_masterGate | apply calculator_masterLevel
    | closing_step | stretch_step ].
Qed.

(** The loop and the run. *)

Lemma revised_iteration s entry :
  let s' := CalculatorRevised.iteration host fieldIds options s entry in
  (processed s' + failures (trace s') = S (processed s + failures (trace s)))%nat.
Proof.
  destruct entry as [index recordId]. unfold CalculatorRevised.iteration.
  apply catch_tally. apply closing_bind; [apply stretch_setLabel|intros].
  apply revised_processRecord.
Qed.

Lemma calculator_iteration s entry :
  let s' := Calculator.iteration host fieldIds options s entry in
  (processed s' + failures (trace s') = S (processed s + failures (trace s)))%nat.
Proof.
  destruct entry as [index recordId]. unfold Calculator.iteration.
  apply catch_tally. apply closing_bind; [apply stretch_setLabel|intros].
  apply calculator_processRecord.
Qed.

Lemma loop_tally (step : State host -> nat * text -> State host) entries :
  (forall s entry, processed (step s entry) + failures (trace (step s entry))
                   = S (processed s + failures (trace s)))%nat ->
  forall s, (processed (foldl step s entries) + failures (trace (foldl step s entries))
             = processed s + failures (trace s) + length entries)%nat.
Proof.
  intros Hstep. induction entries as [|entry entries IH]; intros s; cbn [foldl length].
  - lia.
  - rewrite IH, Hstep. lia.
Qed.

Lemma run_tally (step : State host -> nat * text -> State host) (ids : list text) s0 :
  (forall s entry, processed (step s entry) + failures (trace (step s entry))
                   = S (processed s + failures (trace s)))%nat ->
  processed s0 = 0%nat -> failures (trace s0) = 0%nat ->
  let s2 := foldl step s0 (imap pair ids) in
  let s3 := (@onLog host (Summary (processed s2) (length ids)) s2).2 in
  last (trace s3) = Some (Log (Summary (processed s3) (length ids))) /\
  (processed s3 + failures (trace s3) = length ids)%nat.
Proof.
  intros Hstep Hp Hf s2 s3.
  pose proof (loop_tally step (imap pair ids) Hstep s0) as H.
  rewrite length_imap, Hp, Hf in H. fold s2 in H.
  subst s3. unfold onLog, emit. cbn [snd trace processed]. split.
  - by rewrite last_snoc.
  - rewrite failures_app. change (failures [Log _]) with 0%nat. lia.
Qed.

End Accounting.


Section Run.

Context (host : Host) (fieldIds : FieldIds) (options : CalculationOptions).

Lemma revised_run_tallied selected visible w :
  tallied (effectiveIds (forceAll options) selected visible)
    (CalculatorRevised.runCalculation host fieldIds options selected visible w).
Proof.
  unfold CalculatorRevised.runCalculation, tallied.
  destruct (effectiveIds (forceAll options) selected visible) as [|id ids] eqn:E.
  - reflexivity.
  - destruct (decide _) as [H|_]; [discriminate|].
    apply (run_tally host (CalculatorRevised.iteration host fieldIds options));
      [apply revised_iteration|reflexivity..].
Qed.

Lemma calculator_run_tallied selected visible w :
  tallied (effectiveIds (forceAll options) selected visible)
    (Calculator.runCalculation host fieldIds options selected visible w).
Proof.
  unfold Calculator.runCalculation, tallied.
  destruct (effectiveIds (forceAll options) selected visible) as [|id ids] eqn:E.
  - reflexivity.
  - destruct (decide _) as [H|_]; [discriminate|].
    apply (run_tally host (Calculator.iteration host fieldIds options));
      [apply calculator_iteration|reflexivity..].
Qed.

End Run.

(** C9, as the specification words it, fails: a record whose processing
    throws (here: the record store fails on [getRecordById]) is logged as
    failed and not counted, and the summary reports 0 of 1. *)
Lemma thrown_record_not_counted :
  ~ (forall host fieldIds options selected visible w p total,
       last (trace (CalculatorRevised.runCalculation host fieldIds options
                      selected visible w)) = Some (Log (Summary p total)) ->
       p = total).
Proof.
  intros H.
  specialize (H (tableHost ∅) allFields (sampleOptions Box 0) []
                [Some (utf16 "rec1")] tt 0%nat 1%nat).
  discriminate H. vm_compute. reflexivity.
Qed.

(** C9, amended.  In both revisions of the cascade every record of the
    effective input set whose processing does not throw is counted as
    processed exactly once, whichever branch it takes; a record whose
    processing throws is logged as failed and not counted.  The run over a
    non-empty set ends with the summary line, whose processed count plus the
    number of failed records is the number of records requested; over an
    empty set the only line logged is that there is nothing to do. *)
Theorem summary_counts_records_not_thrown (host : Host) (fieldIds : FieldIds)
    (options : CalculationOptions) (selected visible : list (option text))
    (w : host_state host) :
  tallied (effectiveIds (forceAll options) selected visible)
    (CalculatorRevised.runCalculation host fieldIds options selected visible w) /\
  tallied (effectiveIds (forceAll options) selected visible)
    (Calculator.runCalculation host fieldIds options selected visible w).
Proof. split; [apply revised_run_tallied|apply calculator_run_tallied]. Qed.


(** *** The steps of the revised cascade *)

Section Revised.

Import CalculatorRevised.

Context (host : Host) (fieldIds : FieldIds) (options : CalculationOptions).

Lemma bind_Next {A B} (m : M host A) (k : A -> M host B) s b s' :
  bind m k s = (Next b, s') ->
  exists a s1, m s = (Next a, s1) /\ k a s1 = (Next b, s').
Proof.
  unfold bind. destruct (m s) as [[a| |e] s1]; try discriminate.
  intros H. by exists a, s1.
Qed.

Lemma stretch_appended {A} (m : M host A) s o s' :
  stretch m -> m s = (o, s') -> appended s s'.
Proof. intros Hm H. destruct (Hm s) as [Ha _]. by rewrite H in Ha. Qed.

Lemma closing_appended {A} (m : M host A) s o s' :
  closing m -> m s = (o, s') -> appended s s'.
Proof. intros Hm H. destruct (Hm s) as [Ha _]. by rewrite H in Ha. Qed.

(** What the net weight step writes and logs. *)
Lemma netWeightStep_events recordId l masterQty weight s r s' :
  netWeightStep host fieldIds recordId l masterQty weight s = (Next r, s') ->
  exists new, trace s' = trace s ++ new /\
    if isPositive weight then
      r.1 = Some (round (Calculator.asNumber weight / 1000 * masterQty) 3) /\
      (unset (fieldIds Key.netWeight) = false ->
       SetCellValue (fieldIds Key.netWeight) recordId r.1 ∈ new)
    else
      r.1 = None /\
      Log (NetWeightCleared l) ∈ new /\
      (unset (fieldIds Key.netWeight) = false ->
       SetCellValue (fieldIds Key.netWeight) recordId None ∈ new).
Proof.
  unfold netWeightStep, pushIfSet, bind, issue, onLog, emit, ret.
  destruct (isPositive weight);
    destruct (unset (fieldIds Key.netWeight)); cbn;
    try destruct (setCellValue host _ _ _ _) as [p w']; cbn;
    intros [= <- <-]; cbn [trace fst]; eexists; (split; [try reflexivity|]).
  - by rewrite app_nil_r.
  - split; [reflexivity|]. discriminate.
  - split; [reflexivity|]. intros _. apply list_elem_of_singleton. reflexivity.
  - split; [reflexivity|]. split; [|discriminate]. apply list_elem_of_singleton. reflexivity.
  - by rewrite <- app_assoc.
  - split; [reflexivity|]. split; [|intros _]; set_solver.
Qed.

(** What a record that runs to the end of the [try] block got for its net
    weight. *)
Lemma revised_net_weight index recordId s s' fields w' :
  getRecordById host recordId (world s) = (inr fields, w') ->
  processRecord host fieldIds options index recordId s = (Next tt, s') ->
  let weight := fetchValue host fieldIds fields Key.itemWeight in
  let masterQty := default 0%float (fetchValue host fieldIds fields Key.masterQty) in
  let l := recordLabel host fieldIds fields index recordId in
  exists new, trace s' = trace s ++ new /\
    if isPositive weight then
      unset (fieldIds Key.netWeight) = false ->
      SetCellValue (fieldIds Key.netWeight) recordId
        (Some (round (Calculator.asNumber weight / 1000 * masterQty) 3)) ∈ new
    else
      Log (NetWeightCleared l) ∈ new /\
      (unset (fieldIds Key.netWeight) = false ->
       SetCellValue (fieldIds Key.netWeight) recordId None ∈ new).
Proof.
  intros Hget Hrun weight masterQty l. unfold processRecord in Hrun.
  apply bind_Next in Hrun as (fields' & s1 & Hg & Hrun).
  assert (Hs1 : appended s s1) by (eapply stretch_appended, Hg; apply stretch_getRecord).
  unfold getRecord in Hg. rewrite Hget in Hg. injection Hg as <- _.
  apply bind_Next in Hrun as ([] & s2 & Hl & Hrun).
  assert (Hs2 : appended s1 s2) by (eapply stretch_appended, Hl; apply stretch_setLabel).
  fold l in Hrun.
  destruct (_ || _ || _); [discriminate|].
  destruct (_ && _); [discriminate|].
  destruct (_ && _); [discriminate|].
  apply bind_Next in Hrun as (inner & s3 & Hinner & Hrun).
  apply bind_Next in Hrun as ([] & s4 & Hgate & Hrun).
  apply bind_Next in Hrun as ([arrangement updates] & s5 & Hmaster & Hrun).
  apply bind_Next in Hrun as ([kg pushed] & s6 & Hnw & Hfin).
  assert (Hs3 : appended s2 s3) by (eapply stretch_appended, Hinner; apply revised_innerLevel).
  assert (Hs4 : appended s3 s4) by (eapply stretch_appended, Hgate; apply revised_masterGate).
  assert (Hs5 : appended s4 s5) by (eapply stretch_appended, Hmaster; apply revised_masterLevel).
  assert (Hs' : appended s6 s') by (eapply closing_appended, Hfin; apply revised_finish).
  pose proof (appended_trans _ _ _ Hs1 (appended_trans _ _ _ Hs2
                (appended_trans _ _ _ Hs3 (appended_trans _ _ _ Hs4 Hs5))))
    as (before & Hbefore & _).
  destruct Hs' as (after & Hafter & _).
  apply netWeightStep_events in Hnw as (new & Hnew & Hstep).
  exists (before ++ new ++ after). split.
  { by rewrite Hafter, Hnew, Hbefore, <- !app_assoc. }
  fold weight masterQty in Hstep. destruct (isPositive weight).
  - destruct Hstep as [Hkg Hset]. intros Hu. cbn [fst] in *. rewrite <- Hkg.
    apply elem_of_app. right. apply elem_of_app. left. by apply Hset.
  - destruct Hstep as (_ & Hlog & Hset). split; [|intros Hu];
      apply elem_of_app; right; apply elem_of_app; left; [exact Hlog|by apply Hset].
Qed.

(** A record that passes the dimension check and has a quantity that is
    present but no integer: one line is logged, the record is counted, and
    nothing else happens. *)
Lemma revised_type_mismatch index recordId s fields w' :
  getRecordById host recordId (world s) = (inr fields, w') ->
  isPositive (fetchValue host fieldIds fields Key.itemWidth) = true ->
  isPositive (fetchValue host fieldIds fields Key.itemDepth) = true ->
  isPositive (fetchValue host fieldIds fields Key.itemHeight) = true ->
  (exists q, fetchValue host fieldIds fields Key.innerQty = Some q /\
             JS.Number_isInteger q = false) \/
  (exists q, fetchValue host fieldIds fields Key.masterQty = Some q /\
             JS.Number_isInteger q = false) ->
  let l := recordLabel host fieldIds fields index recordId in
  exists line, (line = InnerQtyNotInteger l \/ line = MasterQtyNotInteger l) /\
    processRecord host fieldIds options index recordId s
    = (Continue, {| world := w'; trace := trace s ++ [Log line];
                    processed := S (processed s); label := l |}).
Proof.
  intros Hget Hw Hd Hh Hq l.
  unfold processRecord, bind, getRecord. rewrite Hget. cbn.
  fold l. rewrite Hw, Hd, Hh. cbn [negb orb].
  destruct (bool_decide (fetchValue host fieldIds fields Key.innerQty ≠ None) && _)
    eqn:Einner.
  - exists (InnerQtyNotInteger l). split; [by left|reflexivity].
  - destruct (bool_decide (fetchValue host fieldIds fields Key.masterQty ≠ None) && _)
      eqn:Emaster.
    + exists (MasterQtyNotInteger l). split; [by right|reflexivity].
    + exfalso. destruct Hq as [(q & Hq & Hint)|(q & Hq & Hint)].
      * rewrite Hq in Einner. cbn in Einner. rewrite Hint in Einner.
        first [discriminate
              |rewrite bool_decide_eq_true_2 in Einner by discriminate; discriminate].
      * rewrite Hq in Emaster. cbn in Emaster. rewrite Hint in Emaster.
        first [discriminate
              |rewrite bool_decide_eq_true_2 in Emaster by discriminate; discriminate].
Qed.

End Revised.

(** With a poly bag the revised cascade does not look at the configured
    inner buffer: the buffer handed to the inner arrangement is 0, and the
    whole run is the run with an inner buffer of 0. *)
Lemma revised_polybag_buffer host fieldIds all buffer unitI master unitM
    selected visible w :
  let options b :=
    {| forceAll := all; innerBuffer := b; innerBufferUnit := unitI;
       masterBuffer := master; masterBufferUnit := unitM;
       innerMaterial := PolyBag |} in
  CalculatorRevised.innerBufferInches (options buffer) = 0%float /\
  CalculatorRevised.runCalculation host fieldIds (options buffer) selected visible w
  = CalculatorRevised.runCalculation host fieldIds (options 0%float) selected visible w.
Proof.
  intros options. split; [|reflexivity].
  unfold CalculatorRevised.innerBufferInches, convertBufferToInches. cbn.
  destruct unitI; reflexivity.
Qed.

(** The packaging mass in the inner gross weight: none for a poly bag, 100 g
    for a box. *)
Lemma revised_packaging_mass innerQty weight :
  (innerQty <=? 0)%float = false -> isPositive (Some weight) = true ->
  CalculatorRevised.computeInnerGrossWeightLb innerQty (Some weight) PolyBag
  = Some ((innerQty * weight + 0) * 0.00220462)%float /\
  CalculatorRevised.computeInnerGrossWeightLb innerQty (Some weight) Box
  = Some ((innerQty * weight + 100) * 0.00220462)%float.
Proof.
  intros Hq Hw. unfold CalculatorRevised.computeInnerGrossWeightLb.
  rewrite Hq, Hw. split; reflexivity.
Qed.


(** *** Where [core/calculator.ts] parts from the specification *)

#[local] Open Scope float_scope.

(** C5 on [core/calculator.ts]: with an inner level the net weight is derived
    from the inner gross weight, packaging included (0.6 kg for eight 50 g
    units in boxes of four, where the specification and the revised cascade
    give 50/1000 * 8 = 0.4 kg); without a unit weight nothing is cleared and
    nothing is logged about it. *)
Theorem calculator_net_weight_from_inner_gross :
  written (utf16 "netWeight") rec1
    (runCalculator Box 0 (cubeRecord (VNumber 50) (VNumber 4) (VNumber 8))) = [Some 0.6] /\
  round (50 / 1000 * 8) 3 = 0.4 /\
  written (utf16 "netWeight") rec1
    (runRevised Box 0 (cubeRecord (VNumber 50) (VNumber 4) (VNumber 8))) = [Some 0.4] /\
  written (utf16 "netWeight") rec1
    (runCalculator Box 0 (cubeRecord VNull (VNumber 0) (VNumber 12))) = [] /\
  logged (runCalculator Box 0 (cubeRecord VNull (VNumber 0) (VNumber 12)))
  = [WillProcess 1; NoInnerCarton label1; MasterUpdated label1 1 1 12; Summary 1 1].
Proof. vm_compute. repeat split; reflexivity. Qed.

(** C6 on [core/calculator.ts]: with a poly bag the configured inner buffer
    is applied all the same (two unit cubes with a buffer of 1 inch give an
    inner carton 3 inches high, where the revised cascade gives 2). *)
Theorem calculator_polybag_buffer_applied :
  Calculator.innerBufferInches (sampleOptions PolyBag 1) = 1 /\
  written (utf16 "innerHeight") rec1
    (runCalculator PolyBag 1 (cubeRecord (VNumber 50) (VNumber 2) (VNumber 4)))
  = [Some 3] /\
  written (utf16 "innerHeight") rec1
    (runRevised PolyBag 1 (cubeRecord (VNumber 50) (VNumber 2) (VNumber 4)))
  = [Some 2].
Proof. vm_compute. repeat split; reflexivity. Qed.

(** C8 on [core/calculator.ts]: an inner quantity of 2.5 is truncated to 2,
    the inner carton is computed and written, and no type mismatch is logged;
    the revised cascade logs the mismatch and writes nothing. *)
Theorem calculator_truncates_quantity :
  written (utf16 "innerHeight") rec1
    (runCalculator Box 0 (cubeRecord (VNumber 50) (VNumber 2.5) (VNumber 5)))
  = [Some 2] /\
  logged (runCalculator Box 0 (cubeRecord (VNumber 50) (VNumber 2.5) (VNumber 5)))
  = [WillProcess 1; InnerUpdated label1 1 1 2; NotDivisible label1 5 2; Summary 1 1] /\
  runRevised Box 0 (cubeRecord (VNumber 50) (VNumber 2.5) (VNumber 5))
  = [Log (WillProcess 1); Log (InnerQtyNotInteger label1); Log (Summary 1 1)].
Proof. vm_compute. repeat split; reflexivity. Qed.

End CascadeFacts.

(** ** The enumeration and the result of the solver *)

Module ArrangementMore.

Import Arrangement ArrangementSpec EnumerationSpec ArrangementFacts FloatOrder FloatOrderFacts FloatSign FloatSignFacts.

(** *** The enumeration is exact and without repetition *)

Lemma pushUnique_tidy st t : tidy st -> tidy (pushUnique st t).
Proof.
  intros [Hs Hn]. split; [by apply pushUnique_synced|].
  unfold pushUnique. destruct (decide (t ∈ st.1)) as [Hin|Hin]; [exact Hn|].
  cbn. apply NoDup_app. split; [exact Hn|]. split.
  - intros u Hu Hu'. apply list_elem_of_singleton in Hu' as ->. by apply Hin, Hs.
  - apply NoDup_singleton.
Qed.

Lemma foldl_pushUnique_tidy l st : tidy st -> tidy (foldl pushUnique st l).
Proof. intros H. apply foldl_invariant; [exact H|]. intros; by apply pushUnique_tidy. Qed.

Lemma tidy_empty : tidy (∅, []).
Proof. split; [apply synced_empty|apply NoDup_nil_2]. Qed.

Lemma stepB_tidy a quotient st b : tidy st -> tidy (stepB a quotient st b).
Proof.
  intros H. unfold stepB. destruct (decide _); [exact H|].
  by apply foldl_pushUnique_tidy.
Qed.

Lemma stepA_tidy n st a : tidy st -> tidy (stepA n st a).
Proof.
  intros H. unfold stepA. destruct (decide _); [exact H|].
  apply foldl_invariant; [exact H|]. intros; by apply stepB_tidy.
Qed.

(** [uniquePermutations] returns each rearrangement of its argument once. *)
Theorem uniquePermutations_exact (a b c : Z) :
  NoDup (uniquePermutations (a, b, c)) /\
  forall u, u ∈ uniquePermutations (a, b, c) <->
            u ∈ [(a, b, c); (a, c, b); (b, a, c); (b, c, a); (c, a, b); (c, b, a)].
Proof.
  split.
  - unfold uniquePermutations. apply foldl_pushUnique_tidy, tidy_empty.
  - intros u. split; [apply uniquePermutations_elem|].
    intros Hu. unfold uniquePermutations.
    apply foldl_pushUnique_adds; [apply synced_empty|exact Hu].
Qed.

(** [generateFactorTriples] lists every ordered triple of positive integers
    whose product is the absolute value of the quantity, each once. *)
Theorem generateFactorTriples_exact (quantity : Z) :
  NoDup (generateFactorTriples quantity) /\
  forall t, t ∈ generateFactorTriples quantity <-> factorTriple (Z.abs quantity) t.
Proof.
  split.
  - unfold generateFactorTriples. destruct (decide _); [apply NoDup_nil_2|].
    apply (foldl_invariant tidy); [apply tidy_empty|]. intros; by apply stepA_tidy.
  - intros t. split; [apply generateFactorTriples_sound|apply generateFactorTriples_complete].
Qed.

(** *** What the solver returns *)

Lemma positiveFinite_bool (x : float) :
  positiveFinite (Prim2SF x) ->
  JS.Number_isFinite x = true /\ (0 <? x)%float = true.
Proof.
  unfold JS.Number_isFinite, is_finite, is_nan, is_infinity.
  rewrite FloatAxioms.ltb_spec, !FloatAxioms.eqb_spec, abs_spec.
  change (Prim2SF 0) with (S754_zero false).
  change (Prim2SF infinity) with (S754_infinity false).
  destruct (Prim2SF x) as [s|s| |[] m e]; cbn; try tauto. intros _.
  unfold SFeqb. cbn. rewrite Z.compare_refl, Pos.compare_cont_refl. by split.
Qed.

Lemma computeBestArrangement_evaluated (q : Z) (dims : ArrangementInput) (buf : float)
    (r : ArrangementResult) :
  computeBestArrangement q dims buf = Some r -> exists t, evaluate dims buf t = Some r.
Proof.
  intros H. rewrite computeBestArrangement_fold in H.
  destruct (keepBest_selects (candidates q dims buf) r) as (i & Hi & _).
  { intros c Hc. apply candidates_elem in Hc as (t & _ & Ht). by eapply evaluate_not_nan. }
  { exact H. }
  apply list_elem_of_lookup_2, candidates_elem in Hi as (t & _ & Hev). by exists t.
Qed.

(** The result of [computeBestArrangement] is the evaluation of its own
    counts: each outer dimension is count * unit dimension + buffer, finite
    and positive, and the volume is their product over 1728, not NaN. *)
Theorem result_well_formed (q : Z) (dims : ArrangementInput) (buf : float)
    (r : ArrangementResult) :
  computeBestArrangement q dims buf = Some r ->
  evaluate dims buf (counts r) = Some r /\
  (JS.Number_isFinite (width r) && (0 <? width r)%float
   && JS.Number_isFinite (depth r) && (0 <? depth r)%float
   && JS.Number_isFinite (height r) && (0 <? height r)%float = true) /\
  cubeFeet r = (width r * depth r * height r / 1728)%float /\
  ~ isNaN (cubeFeet r).
Proof.
  intros H. apply computeBestArrangement_evaluated in H as (t & Hev).
  pose proof (evaluate_inv _ _ _ _ Hev) as (Hc & Hw & Hd & Hh & Hv).
  rewrite Hc. split; [exact Hev|].
  split; [|split; [exact Hv|by eapply evaluate_not_nan]].
  rewrite !andb_true_iff. repeat split; by (apply positiveFinite_bool).
Qed.

End ArrangementMore.

(** ** The loop body: fallbacks, early exits, writes *)

Module CascadeMore.

Import Cascade CascadeSpec CascadeSamples CascadeFacts ArrangementMore CascadeMoreSpec.
Import ArrangementFacts.
#[local] Open Scope cascade_scope.

(** *** The fallback chain of base dimensions *)

(** [[a, b, c].find(isPositive)] is the first positive entry; there is none
    exactly when no entry is positive. *)
Theorem findPositive_first (values : list (option float)) :
  match findPositive values with
  | Some x =>
      exists i : nat, values !! i = Some (Some x) /\ isPositive (Some x) = true /\
        forall (j : nat) v, (j < i)%nat -> values !! j = Some v -> isPositive v = false
  | None => forall v, v ∈ values -> isPositive v = false
  end.
Proof.
  unfold findPositive.
  destruct (list_find (fun v => isPositive v = true) values) as [[i v]|] eqn:E; cbn.
  - apply list_find_Some in E as (Hi & Hv & Hbefore).
    destruct v as [x|]; [|discriminate]. cbn.
    exists i. repeat split; try assumption.
    intros j v Hj Hl. specialize (Hbefore j v Hl Hj). by destruct (isPositive v).
  - apply list_find_None in E. intros v Hv.
    rewrite Forall_forall in E. specialize (E v Hv). by destruct (isPositive v).
Qed.

Lemma findPositive_head (x : float) (rest : list (option float)) :
  isPositive (Some x) = true -> findPositive (Some x :: rest) = Some x.
Proof.
  intros H. unfold findPositive. cbn [list_find]. by rewrite decide_True.
Qed.

Lemma findPositive_skip (rest : list (option float)) :
  findPositive (None :: rest) = findPositive rest.
Proof.
  unfold findPositive. cbn [list_find].
  rewrite decide_False by (cbn; discriminate).
  by destruct (list_find (fun v => isPositive v = true) rest) as [[i v]|].
Qed.

Lemma inner_positive (q : Z) (dims : Arrangement.ArrangementInput) (buf : float)
    (inner : ArrangementResult) :
  computeBestArrangement q dims buf = Some inner ->
  isPositive (Some (width inner)) = true /\
  isPositive (Some (depth inner)) = true /\
  isPositive (Some (height inner)) = true.
Proof.
  intros H. apply computeBestArrangement_evaluated in H as (t & Hev).
  pose proof (evaluate_inv _ _ _ _ Hev) as (_ & Hw & Hd & Hh & _).
  apply positiveFinite_bool in Hw as (Hw1 & Hw2), Hd as (Hd1 & Hd2), Hh as (Hh1 & Hh2).
  cbn. by rewrite Hw1, Hw2, Hd1, Hd2, Hh1, Hh2.
Qed.

(** When the inner arrangement was found, the master level of either
    revision works on the inner carton as its unit cell, whatever is stored
    in the inner fields and whatever the unit dimensions are: it is the
    master level of a record whose unit dimensions are those of the inner
    carton and that has neither an inner arrangement nor stored inner
    dimensions. *)
Theorem master_level_uses_inner_carton (host : Host) (fieldIds : FieldIds)
    (options : CalculationOptions) (q : Z) (dims : Arrangement.ArrangementInput)
    (buf : float) (inner : ArrangementResult) (recordId : text) (l : Label)
    (innerQty masterQty : float)
    (itemWidth itemDepth itemHeight itemWeight : option float)
    (existingWidth existingDepth existingHeight existingWeightLb grossLb : option float) :
  computeBestArrangement q dims buf = Some inner ->
  (0 <? innerQty)%float = true ->
  CalculatorRevised.masterLevel host fieldIds options recordId l innerQty masterQty
    itemWidth itemDepth itemHeight existingWidth existingDepth existingHeight (Some inner)
  = CalculatorRevised.masterLevel host fieldIds options recordId l innerQty masterQty
      (Some (width inner)) (Some (depth inner)) (Some (height inner))
      None None None None /\
  Calculator.masterLevel host options l innerQty masterQty
    itemWidth itemDepth itemHeight itemWeight
    existingWidth existingDepth existingHeight existingWeightLb (Some inner) grossLb
  = Calculator.masterLevel host options l innerQty masterQty
      (Some (width inner)) (Some (depth inner)) (Some (height inner)) itemWeight
      None None None existingWeightLb None grossLb.
Proof.
  intros H Hq. apply inner_positive in H as (Hw & Hd & Hh).
  split.
  - unfold CalculatorRevised.masterLevel. rewrite Hq.
    cbn [fmap option_fmap option_map].
    rewrite !findPositive_skip, !findPositive_head by assumption. reflexivity.
  - unfold Calculator.masterLevel. rewrite Hq.
    cbn [fmap option_fmap option_map].
    rewrite !findPositive_skip, !findPositive_head by assumption. reflexivity.
Qed.

(** *** Number extraction *)

(** [extractNumber] only ever hands out finite numbers, and none for
    [null], [undefined], booleans and arrays. *)
Theorem extractNumber_finite (StrNumericLiteral : text -> float) (cellValue : value) :
  match extractNumber StrNumericLiteral cellValue with
  | Some x => JS.Number_isFinite x = true
  | None => True
  end /\
  (match cellValue with
   | VNull | VUndefined | VBoolean _ | VArray _ => extractNumber StrNumericLiteral cellValue = None
   | _ => True
   end).
Proof.
  split.
  - destruct cellValue as [| | |x|s|t v|]; cbn; try exact I.
    + by destruct (JS.Number_isFinite x) eqn:E.
    + by destruct (JS.Number_isFinite (StringToNumber StrNumericLiteral s)) eqn:E.
    + destruct v as [| | |x| | |]; try exact I. by destruct (JS.Number_isFinite x) eqn:E.
  - by destruct cellValue.
Qed.

(** *** The two inner gross weights *)

(** For a positive unit weight the two revisions compute the same inner
    gross weight; the revision gives none for a unit weight that is not
    positive. *)
Theorem inner_gross_weight_agrees (innerQty : float) (itemWeight : option float)
    (material : InnerMaterial) :
  (isPositive itemWeight = true ->
   CalculatorRevised.computeInnerGrossWeightLb innerQty itemWeight material
   = Calculator.computePackagingWeightLb innerQty itemWeight material) /\
  (isPositive itemWeight = false ->
   CalculatorRevised.computeInnerGrossWeightLb innerQty itemWeight material = None).
Proof.
  unfold CalculatorRevised.computeInnerGrossWeightLb, Calculator.computePackagingWeightLb.
  split; intros H; rewrite H; cbn [negb]; destruct (innerQty <=? 0)%float; try reflexivity.
  destruct itemWeight as [w|]; [|discriminate]. cbn in H.
  apply andb_true_iff in H as [-> _]. reflexivity.
Qed.

(** *** Early exits of the loop body *)

Section Skips.

Context (host : Host) (fieldIds : FieldIds) (options : CalculationOptions).

(** A record without three positive unit dimensions: in both revisions
    one line is logged, the record is counted, and nothing is written. *)
Theorem incomplete_dimensions_skipped (index : nat) (recordId : text)
    (s : State host) (fields : Fields) (w' : host_state host) :
  getRecordById host recordId (world s) = (inr fields, w') ->
  isPositive (fetchValue host fieldIds fields Key.itemWidth)
  && isPositive (fetchValue host fieldIds fields Key.itemDepth)
  && isPositive (fetchValue host fieldIds fields Key.itemHeight) = false ->
  CalculatorRevised.processRecord host fieldIds options index recordId s
  = (Continue,
     {| world := w';
        trace := trace s ++ [Log (IncompleteDimensions
                    (CalculatorRevised.recordLabel host fieldIds fields index recordId))];
        processed := S (processed s);
        label := CalculatorRevised.recordLabel host fieldIds fields index recordId |}) /\
  Calculator.processRecord host fieldIds options index recordId s
  = (Continue,
     {| world := w';
        trace := trace s ++ [Log (IncompleteDimensions
                    (Calculator.formatRecordLabel recordId index))];
        processed := S (processed s);
        label := label s |}).
Proof.
  intros Hget Hdims.
  assert (E : negb (isPositive (fetchValue host fieldIds fields Key.itemWidth))
              || negb (isPositive (fetchValue host fieldIds fields Key.itemDepth))
              || negb (isPositive (fetchValue host fieldIds fields Key.itemHeight)) = true).
  { rewrite <- !negb_andb. by rewrite Hdims. }
  split.
  - unfold CalculatorRevised.processRecord, bind, getRecord. rewrite Hget. cbn.
    by rewrite E.
  - unfold Calculator.processRecord, bind, getRecord. rewrite Hget. cbn.
    by rewrite E.
Qed.

(** The master quantity gate never throws.  It lets a positive quantity
    through untouched; for a quantity that is not positive it logs one
    line, counts the record and leaves the iteration, and it shows the
    warning exactly when the quantity is zero; a warning that fails is only
    reported on the console. *)
Theorem master_gate (l : Label) (masterQty : float) (s : State host) :
  Calculator.masterGate host l masterQty = CalculatorRevised.masterGate host l masterQty /\
  let r := CalculatorRevised.masterGate host l masterQty s in
  if (masterQty <=? 0)%float then
    r.1 = Continue /\ processed r.2 = S (processed s) /\
    trace r.2 = trace s ++ Log (MasterQtyMissing l) ::
      (if (masterQty =? 0)%float then
         ShowToast :: match (showToast host (world s)).1 with
                      | Some _ => [LogError "toast"]
                      | None => []
                      end
       else [])
  else r = (Next tt, s).
Proof.
  split; [reflexivity|]. unfold CalculatorRevised.masterGate.
  destruct (masterQty <=? 0)%float; [|reflexivity].
  unfold bind, onLog, emit, warnCasePack, logError, emit, countProcessed, continue_, ret.
  cbn. destruct (masterQty =? 0)%float; cbn.
  - destruct (showToast host (world s)) as [[e|] w]; cbn;
      repeat split; by rewrite <- ?app_assoc.
  - by repeat split.
Qed.

End Skips.

(** *** Writes *)

Section Writes.

Context (host : Host) (fieldIds : FieldIds) (options : CalculationOptions).

Lemma clearKeys_trace recordId keys : forall s,
  exists ps s', CalculatorRevised.clearKeys host fieldIds keys recordId s = (Next ps, s') /\
    trace s' = trace s ++ clears fieldIds recordId keys /\
    processed s' = processed s /\
    (ps = [] <-> clears fieldIds recordId keys = []).
Proof.
  induction keys as [|key keys IH]; intros s; cbn [CalculatorRevised.clearKeys].
  - exists [], s. unfold clears. cbn. split; [reflexivity|].
    split; [by rewrite app_nil_r|]. split; [reflexivity|tauto].
  - unfold bind at 1. unfold CalculatorRevised.pushIfSet, clears.
    rewrite filter_cons. destruct (unset (fieldIds key)) eqn:E.
    + rewrite decide_False by discriminate. unfold ret at 1.
      destruct (IH s) as (ps & s' & H & Ht & Hp & He).
      unfold bind at 1. rewrite H. exists ps, s'.
      split; [reflexivity|]. split; [exact Ht|]. split; [exact Hp|exact He].
    + rewrite decide_True by reflexivity. unfold bind at 1, issue.
      destruct (setCellValue host (fieldIds key) recordId None (world s)) as [p w] eqn:Ew.
      unfold ret at 1.
      set (s1 := {| world := w; trace := trace s ++ [SetCellValue (fieldIds key) recordId None];
                    processed := processed s; label := label s |}).
      destruct (IH s1) as (ps & s' & H & Ht & Hp & He).
      unfold bind at 1. rewrite H. exists ([p] ++ ps), s'. split; [reflexivity|].
      split; [|split; [exact Hp|split; discriminate]].
      rewrite Ht. cbn. by rewrite <- app_assoc.
Qed.

Lemma clearInnerValues_trace recordId s :
  let r := CalculatorRevised.clearInnerValues host fieldIds recordId s in
  trace r.2 = trace s ++ clears fieldIds recordId CalculatorRevised.INNER_FIELD_KEYS /\
  processed r.2 = processed s /\
  (r.1 = Next tt \/ exists e, r.1 = Throw e).
Proof.
  unfold CalculatorRevised.clearInnerValues, bind.
  destruct (clearKeys_trace recordId CalculatorRevised.INNER_FIELD_KEYS s)
    as (ps & s' & -> & Ht & Hp & _).
  destruct (decide (length ps = 0%nat)); cbn.
  - by eauto.
  - unfold awaitAll. destruct (omap id ps); cbn; eauto.
Qed.

(** Without an inner level the revised cascade logs so and clears the inner
    fields that are configured, and no others; it hands on no inner
    arrangement, and it does not count the record yet. *)
Theorem no_inner_level_clears (recordId : text) (l : Label) (innerQty : float)
    (w d h weight existing : option float) (s : State host) :
  (0 <? innerQty)%float = false ->
  let r := CalculatorRevised.innerLevel host fieldIds options recordId l innerQty
             w d h weight existing s in
  trace r.2 = trace s ++ Log (NoInnerCarton l)
                :: clears fieldIds recordId CalculatorRevised.INNER_FIELD_KEYS /\
  processed r.2 = processed s /\
  (r.1 = Next None \/ exists e, r.1 = Throw e).
Proof.
  intros Hq r. subst r. unfold CalculatorRevised.innerLevel. rewrite Hq.
  set (s1 := {| world := world s; trace := trace s ++ [Log (NoInnerCarton l)];
                processed := processed s; label := label s |}).
  pose proof (clearInnerValues_trace recordId s1) as (Ht & Hp & Ho).
  unfold bind, onLog, emit. fold s1.
  destruct (CalculatorRevised.clearInnerValues host fieldIds recordId s1)
    as [[[]| |e] s2]; cbn [fst snd] in *.
  - cbn -[clears]. destruct (decide (0%nat = 0%nat)); cbn -[clears];
      rewrite Ht; cbn -[clears]; rewrite <- app_assoc; repeat split; auto.
  - destruct Ho as [Ho|[e Ho]]; discriminate.
  - rewrite Ht. cbn -[clears]. rewrite <- app_assoc. repeat split; eauto.
Qed.

End Writes.

(** *** Where the writes of a run go *)

Section Emits.

Context {host : Host} (P : event -> Prop).

Lemma emits_ret {A} (a : A) : emits P (@ret host A a).
Proof. intros s. exists []. by rewrite app_nil_r. Qed.

Lemma emits_continue {A} : emits P (@continue_ host A).
Proof. intros s. exists []. by rewrite app_nil_r. Qed.

Lemma emits_countProcessed : emits P (@countProcessed host).
Proof. intros s. exists []. cbn. by rewrite app_nil_r. Qed.

Lemma emits_setLabel l : emits P (@setLabel host l).
Proof. intros s. exists []. cbn. by rewrite app_nil_r. Qed.

Lemma emits_bind {A B} (m : M host A) (k : A -> M host B) :
  emits P m -> (forall a, emits P (k a)) -> emits P (bind m k).
Proof.
  intros Hm Hk s. unfold bind. destruct (Hm s) as (n1 & H1 & F1).
  destruct (m s) as [[a| |e] s1]; cbn in *; [|by exists n1..].
  destruct (Hk a s1) as (n2 & H2 & F2). exists (n1 ++ n2). split.
  - by rewrite H2, H1, app_assoc.
  - by apply Forall_app.
Qed.

Lemma emits_emit e : P e -> emits P (@emit host e).
Proof. intros H s. exists [e]. split; [reflexivity|by constructor]. Qed.

Lemma emits_getRecord recordId : emits P (@getRecord host recordId).
Proof.
  intros s. unfold getRecord. exists [].
  destruct (getRecordById host recordId (world s)) as [[e|fields] w]; cbn;
    by rewrite app_nil_r.
Qed.

Lemma emits_issue fieldId recordId v :
  P (SetCellValue fieldId recordId v) -> emits P (@issue host fieldId recordId v).
Proof.
  intros H s. unfold issue.
  destruct (setCellValue host fieldId recordId v (world s)) as [r w]; cbn.
  exists [SetCellValue fieldId recordId v]. split; [reflexivity|by constructor].
Qed.

Lemma emits_awaitAll promises : emits P (@awaitAll host promises).
Proof.
  unfold awaitAll. destruct (omap id promises); [apply emits_ret|].
  intros s. exists []. by rewrite app_nil_r.
Qed.

Lemma emits_warnCasePack :
  P ShowToast -> P (LogError "toast") -> emits P (@warnCasePack host).
Proof.
  intros H1 H2 s. unfold warnCasePack.
  destruct (showToast host (world s)) as [[e|] w]; cbn.
  - exists [ShowToast; LogError "toast"]. cbn.
    split; [by rewrite <- app_assoc|by repeat constructor].
  - exists [ShowToast]. split; [reflexivity|by constructor].
Qed.

End Emits.

Ltac emits_step :=
  first
    [ apply emits_ret | apply emits_continue | apply emits_countProcessed
    | apply emits_setLabel | apply emits_getRecord | apply emits_awaitAll
    | apply emits_warnCasePack; exact I
    | apply emits_emit; exact I
    | apply emits_bind; [|intros]
    | match goal with
      | |- emits _ (if ?b then _ else _) => destruct b eqn:?
      | |- emits _ (match ?x with _ => _ end) => destruct x eqn:?
      end ].

Section Targets.

Context (host : Host) (fieldIds : FieldIds) (options : CalculationOptions).

Lemma unset_false (fieldId : text) : unset fieldId = false -> fieldId <> [].
Proof. unfold unset. intros H ->. by rewrite bool_decide_eq_true_2 in H. Qed.

Lemma revised_pushIfSet_target key recordId v :
  emits (writesConfigured recordId)
    (CalculatorRevised.pushIfSet host fieldIds key recordId v).
Proof.
  unfold CalculatorRevised.pushIfSet. destruct (unset (fieldIds key)) eqn:E.
  - apply emits_ret.
  - apply emits_bind; [|intros; apply emits_ret].
    apply emits_issue. split; [by apply unset_false|reflexivity].
Qed.

Lemma revised_clearKeys_target keys recordId :
  emits (writesConfigured recordId)
    (CalculatorRevised.clearKeys host fieldIds keys recordId).
Proof.
  induction keys as [|key keys IH]; cbn [CalculatorRevised.clearKeys].
  - apply emits_ret.
  - apply emits_bind; [apply revised_pushIfSet_target|intros].
    apply emits_bind; [exact IH|intros]. apply emits_ret.
Qed.

Ltac revised_target :=
  repeat first
    [ apply revised_pushIfSet_target | apply revised_clearKeys_target
    | emits_step
    | apply emits_issue; split; [apply unset_false; by apply negb_true_iff|reflexivity] ].

Lemma revised_processRecord_target index recordId :
  emits (writesConfigured recordId)
    (CalculatorRevised.processRecord host fieldIds options index recordId).
Proof.
  unfold CalculatorRevised.processRecord, CalculatorRevised.innerLevel,
    CalculatorRevised.clearInnerValues, CalculatorRevised.masterGate,
    CalculatorRevised.masterLevel, CalculatorRevised.pushMasterDimensions,
    CalculatorRevised.netWeightStep, CalculatorRevised.finish, onLog, logError.
  revised_target.
Qed.

Lemma calculator_processRecord_target index recordId :
  emits (writesRecord recordId)
    (Calculator.processRecord host fieldIds options index recordId).
Proof.
  unfold Calculator.processRecord, Calculator.innerLevel, Calculator.masterGate,
    Calculator.masterLevel, Calculator.writeMaster, onLog, logError.
  repeat first [emits_step | apply emits_issue; reflexivity].
Qed.

Lemma emits_weaken {A} (P Q : event -> Prop) (m : M host A) :
  (forall e, P e -> Q e) -> emits P m -> emits Q m.
Proof.
  intros HPQ Hm s. destruct (Hm s) as (new & Hnew & HP). exists new.
  split; [exact Hnew|]. eapply Forall_impl; [exact HP|exact HPQ].
Qed.

(** One round of the loop, for a loop body whose events satisfy [Q]. *)
Lemma catch_target (Q : event -> Prop) (body : M host unit) (s : State host) :
  emits Q body -> Q (LogError "record-calc") -> (forall l e, Q (Log (Failed l e))) ->
  Forall Q (trace s) ->
  Forall Q (trace match body s with
                  | (Throw e, s1) =>
                      ((logError "record-calc" ;; onLog (Failed (label s1) e)) s1).2
                  | (_, s1) => s1
                  end).
Proof.
  intros Hbody H1 H2 Hs. destruct (Hbody s) as (new & Hnew & HQ).
  destruct (body s) as [[[]| |e] s1]; cbn [snd] in Hnew;
    try (rewrite Hnew; by apply Forall_app).
  unfold bind, logError, onLog, emit. cbn [fst snd trace]. rewrite Hnew.
  repeat (apply Forall_app; split); try assumption; by repeat constructor.
Qed.

Lemma loop_target (Q : event -> Prop) (step : State host -> nat * text -> State host)
    (entries : list (nat * text)) :
  (forall s entry, entry ∈ entries -> Forall Q (trace s) -> Forall Q (trace (step s entry))) ->
  forall s, Forall Q (trace s) -> Forall Q (trace (foldl step s entries)).
Proof.
  intros Hstep s Hs.
  apply (foldl_invariant (fun s => Forall Q (trace s))); [exact Hs|].
  intros; by apply Hstep.
Qed.

(** Every write of a run of the revised cascade goes to a configured field
    of one of the records of the effective input set; every write of a run
    of [core/calculator.ts] goes to one of those records. *)
Theorem writes_go_to_the_records (selected visible : list (option text))
    (w : host_state host) :
  let ids := effectiveIds (forceAll options) selected visible in
  Forall (writesConfiguredOf ids)
    (trace (CalculatorRevised.runCalculation host fieldIds options selected visible w)) /\
  Forall (writesRecordOf ids)
    (trace (Calculator.runCalculation host fieldIds options selected visible w)).
Proof.
  intros ids. split.
  - unfold CalculatorRevised.runCalculation. fold ids.
    destruct (decide (length ids = 0%nat)); [by repeat constructor|].
    cbn [snd onLog emit trace]. apply Forall_app. split; [|by repeat constructor].
    apply loop_target; [|by repeat constructor].
    intros s [index recordId] Hin Hs. unfold CalculatorRevised.iteration.
    apply elem_of_lookup_imap in Hin as (i & x & [= -> ->] & Hx).
    apply list_elem_of_lookup_2 in Hx.
    apply catch_target; [|exact I|intros; exact I|exact Hs].
    apply emits_bind; [apply emits_setLabel|intros].
    eapply emits_weaken; [|apply revised_processRecord_target].
    intros [] He; try exact I. destruct He as [Hf ->]. by split.
  - unfold Calculator.runCalculation. fold ids.
    destruct (decide (length ids = 0%nat)); [by repeat constructor|].
    cbn [snd onLog emit trace]. apply Forall_app. split; [|by repeat constructor].
    apply loop_target; [|by repeat constructor].
    intros s [index recordId] Hin Hs. unfold Calculator.iteration.
    apply elem_of_lookup_imap in Hin as (i & x & [= -> ->] & Hx).
    apply list_elem_of_lookup_2 in Hx.
    apply catch_target; [|exact I|intros; exact I|exact Hs].
    apply emits_bind; [apply emits_setLabel|intros].
    eapply emits_weaken; [|apply calculator_processRecord_target].
    intros [] He; try exact I. by rewrite He.
Qed.

End Targets.

End CascadeMore.

(** ** Texts, labels and record ids *)

Module TextFacts.

Import Value Cascade NumbersSpec NumbersFacts.

Lemma trimStart_split s : exists p, s = p ++ trimStart s /\ blank p.
Proof.
  induction s as [|c s (p & Hp & Hb)]; [exists []; split; [reflexivity|apply Forall_nil_2]|]. cbn.
  destruct (isStrWhiteSpaceChar c) eqn:E.
  - exists (c :: p). split; [by rewrite <- app_comm_cons, <- Hp|by apply Forall_cons].
  - exists []. split; [reflexivity|apply Forall_nil_2].
Qed.

Lemma trimStart_head s c t : trimStart s = c :: t -> isStrWhiteSpaceChar c = false.
Proof.
  induction s as [|a s IH]; [discriminate|]. cbn.
  destruct (isStrWhiteSpaceChar a) eqn:E; [exact IH|]. by intros [= <- _].
Qed.

Lemma trimStart_nil_blank s : trimStart s = [] -> blank s.
Proof. intros H. destruct (trimStart_split s) as (p & Hp & Hb). by rewrite H, app_nil_r in Hp; subst. Qed.

Lemma trimStart_fixed s :
  (forall c t, s = c :: t -> isStrWhiteSpaceChar c = false) -> trimStart s = s.
Proof. destruct s as [|c t]; [reflexivity|]. intros H. cbn. by rewrite (H c t eq_refl). Qed.

Lemma blank_app p s : blank (p ++ s) <-> blank p /\ blank s.
Proof. apply Forall_app. Qed.

Lemma blank_reverse s : blank (reverse s) <-> blank s.
Proof. unfold blank. by rewrite Forall_reverse. Qed.

(** [trim] leaves nothing exactly for the strings of white space. *)
Lemma trim_nil s : trim s = [] <-> blank s.
Proof.
  split; [|apply trim_blank]. unfold trim. intros H.
  apply (f_equal reverse) in H. rewrite reverse_involutive in H. cbn in H.
  apply trimStart_nil_blank in H. rewrite blank_reverse in H.
  destruct (trimStart_split s) as (p & Hp & Hb). rewrite Hp.
  apply blank_app. split; assumption.
Qed.

(** The first and the last code unit of a trimmed string are no white space. *)
Lemma trim_ends s c :
  head (trim s) = Some c \/ last (trim s) = Some c -> isStrWhiteSpaceChar c = false.
Proof.
  unfold trim. set (u := trimStart s). set (v := trimStart (reverse u)).
  intros [H|H].
  - rewrite head_reverse in H.
    destruct (trimStart_split (reverse u)) as (p & Hp & Hb). fold v in Hp.
    apply (f_equal reverse) in Hp. rewrite reverse_involutive, reverse_app in Hp.
    destruct (reverse v) as [|a r] eqn:Ev.
    { apply (f_equal reverse) in Ev. rewrite reverse_involutive in Ev.
      by rewrite Ev in H. }
    assert (Ha : last v = Some a).
    { rewrite <- (reverse_involutive v), Ev, last_reverse. reflexivity. }
    rewrite Ha in H. injection H as <-.
    rewrite <- app_comm_cons in Hp. by eapply trimStart_head.
  - rewrite last_reverse in H. destruct v as [|a r] eqn:Ev; [discriminate|].
    injection H as <-. by eapply trimStart_head.
Qed.

Lemma trim_idempotent s : trim (trim s) = trim s.
Proof.
  destruct (trim s) as [|c t] eqn:E; [reflexivity|]. rewrite <- E. unfold trim at 1.
  assert (H1 : trimStart (trim s) = trim s).
  { apply trimStart_fixed. intros a r Ha. apply (trim_ends s). left. by rewrite Ha. }
  rewrite H1.
  assert (H2 : trimStart (reverse (trim s)) = reverse (trim s)).
  { apply trimStart_fixed. intros a r Ha. apply (trim_ends s). right.
    rewrite <- (reverse_involutive (trim s)), Ha, last_reverse. reflexivity. }
  by rewrite H2, reverse_involutive.
Qed.

(** A text taken from a string cell is never empty and has no white space
    at either end; a string of white space gives none. *)
Theorem extractTextValue_trimmed (NumberToString : float -> text) (s : text) :
  match CalculatorRevised.extractTextValue NumberToString (VString s) with
  | Some t =>
      t = trim s /\ t <> [] /\ trim t = t /\
      forall c, head t = Some c \/ last t = Some c -> isStrWhiteSpaceChar c = false
  | None => blank s
  end.
Proof.
  cbn. unfold CalculatorRevised.trimmedOrNull.
  destruct (decide (length (trim s) = 0%nat)) as [H|H].
  - apply trim_nil. by apply nil_length_inv.
  - repeat split.
    + intros E. by rewrite E in H.
    + apply trim_idempotent.
    + apply trim_ends.
Qed.

Lemma trimmedOrNull_spec s :
  CalculatorRevised.trimmedOrNull s = if decide (trim s = []) then None else Some (trim s).
Proof.
  unfold CalculatorRevised.trimmedOrNull.
  destruct (decide (length (trim s) = 0%nat)) as [H|H].
  - apply nil_length_inv in H. by rewrite decide_True.
  - rewrite decide_False; [reflexivity|]. intros E. by rewrite E in H.
Qed.

(** The label of a record of the revised cascade.  The item code is trimmed
    when it is read and again when the label is formatted, and the second
    trimming changes nothing: the label shows the trimmed text of the item
    code cell when that is not empty, and the record id otherwise, so always
    the record id when no item code field is configured.  What it shows is
    the record id or a text that is not empty and has no white space at
    either end, and it is not empty when the record id is not. *)
Theorem record_label_display (host : Host) (fieldIds : FieldIds) (fields : Fields)
    (index : nat) (recordId : text) :
  let l := CalculatorRevised.recordLabel host fieldIds fields index recordId in
  label_number l = (index + 1)%nat /\
  label_display l
  = match CalculatorRevised.fetchText host fieldIds fields Key.itemCode with
    | Some code => if decide (trim code = []) then recordId else trim code
    | None => recordId
    end /\
  (unset (fieldIds Key.itemCode) = true -> label_display l = recordId) /\
  (label_display l = recordId \/
   label_display l <> [] /\ trim (label_display l) = label_display l /\
   forall c, head (label_display l) = Some c \/ last (label_display l) = Some c ->
             isStrWhiteSpaceChar c = false) /\
  (recordId <> [] -> label_display l <> []).
Proof.
  intros l.
  assert (Hd : label_display l
    = match CalculatorRevised.fetchText host fieldIds fields Key.itemCode with
      | Some code => if decide (trim code = []) then recordId else trim code
      | None => recordId
      end).
  { subst l. unfold CalculatorRevised.recordLabel, CalculatorRevised.formatRecordLabel.
    cbn [label_display].
    assert (Hraw : (if unset (fieldIds Key.itemCode) then None
                    else CalculatorRevised.fetchText host fieldIds fields Key.itemCode)
                   = CalculatorRevised.fetchText host fieldIds fields Key.itemCode).
    { unfold CalculatorRevised.fetchText. by destruct (unset (fieldIds Key.itemCode)). }
    rewrite Hraw.
    destruct (CalculatorRevised.fetchText host fieldIds fields Key.itemCode) as [code|];
      [|reflexivity].
    cbn [mbind option_bind]. rewrite trimmedOrNull_spec.
    destruct (decide (trim code = [])) as [E|E]; [reflexivity|].
    cbn [mbind option_bind]. rewrite trimmedOrNull_spec, trim_idempotent.
    by rewrite decide_False. }
  split; [reflexivity|]. split; [exact Hd|]. rewrite Hd. clear Hd.
  split; [|split].
  - intros Hu. unfold CalculatorRevised.fetchText. by rewrite Hu.
  - destruct (CalculatorRevised.fetchText host fieldIds fields Key.itemCode) as [code|];
      [|by left].
    destruct (decide (trim code = [])) as [E|E]; [by left|]. right.
    split; [exact E|]. split; [apply trim_idempotent|].
    intros c Hc. by apply (trim_ends code).
  - intros Hr.
    destruct (CalculatorRevised.fetchText host fieldIds fields Key.itemCode) as [code|];
      [|exact Hr].
    by destruct (decide (trim code = [])).
Qed.

(** *** The record ids of a run *)

Lemma normaliseIds_elem ids id :
  id ∈ normaliseIds ids <-> id <> [] /\ Some id ∈ ids.
Proof.
  unfold normaliseIds. rewrite list_elem_of_omap. split.
  - intros ([[|c s]|] & Hin & E); try discriminate. injection E as <-. by split.
  - intros [Hne Hin]. exists (Some id). split; [exact Hin|]. by destruct id.
Qed.

Lemma normaliseIds_sublist ids : sublist (Some <$> normaliseIds ids) ids.
Proof.
  induction ids as [|[[|c s]|] ids IH]; cbn; try (by constructor).
Qed.

(** The records of a run are the usable ids, in order, of the visible list
    when all records are forced or the selection has no usable id, and of the
    selection otherwise; an id that is undefined or empty is never used. *)
Theorem effective_ids (forceAll : bool) (selected visible : list (option text)) :
  let ids := effectiveIds forceAll selected visible in
  ids = (if forceAll || bool_decide (normaliseIds selected = [])
         then normaliseIds visible else normaliseIds selected) /\
  sublist (Some <$> ids) (if forceAll || bool_decide (normaliseIds selected = [])
                          then visible else selected) /\
  forall id, id ∈ ids -> id <> [].
Proof.
  intros ids. subst ids. unfold effectiveIds.
  destruct forceAll; cbn [orb].
  - split; [reflexivity|]. split; [apply normaliseIds_sublist|].
    intros id H. by apply normaliseIds_elem in H as [? _].
  - destruct (normaliseIds selected) as [|x l] eqn:E.
    + rewrite bool_decide_eq_true_2 by reflexivity. cbn.
      split; [reflexivity|]. split; [apply normaliseIds_sublist|].
      intros id H. by apply normaliseIds_elem in H as [? _].
    + rewrite bool_decide_eq_false_2 by discriminate.
      rewrite decide_True by (cbn; lia).
      split; [reflexivity|]. split; [rewrite <- E; apply normaliseIds_sublist|].
      intros id H. rewrite <- E in H. by apply normaliseIds_elem in H as [? _].
Qed.

End TextFacts.

(** ** Field lookup and the choice of the table *)

Module FieldsFacts.

Import Value Cascade Fields.

Lemma find_Some {A} (p : A -> bool) (l : list A) x :
  find p l = Some x ->
  exists i : nat, l !! i = Some x /\ p x = true /\
    forall (j : nat) y, (j < i)%nat -> l !! j = Some y -> p y = false.
Proof.
  unfold find. destruct (list_find _ l) as [[i y]|] eqn:E; [|discriminate].
  cbn. intros [= ->]. apply list_find_Some in E as (Hi & Hp & Hb).
  exists i. repeat split; try assumption.
  intros j y Hj Hy. specialize (Hb j y Hy Hj). by destruct (p y).
Qed.

Lemma find_None {A} (p : A -> bool) (l : list A) :
  find p l = None <-> forall x, x ∈ l -> p x = false.
Proof.
  unfold find. destruct (list_find _ l) as [[i y]|] eqn:E; cbn.
  - apply list_find_Some in E as (Hi & Hp & _). split; [discriminate|].
    intros H. apply list_elem_of_lookup_2 in Hi. specialize (H y Hi). congruence.
  - apply list_find_None in E. rewrite Forall_forall in E. split; [|reflexivity].
    intros _ x Hx. specialize (E x Hx). by destruct (p x).
Qed.

Lemma getFieldIdByName_Some (toLowerCase : text -> text)
    (fieldMetas : list FieldMetaLike) (name : text) (t : Z) (i : text) :
  getFieldIdByName toLowerCase fieldMetas name (Some t) = Some i ->
  exists meta, meta ∈ fieldMetas /\ id meta = i /\ type meta = Some t.
Proof.
  unfold getFieldIdByName.
  destruct (find _ fieldMetas) as [meta|] eqn:E1.
  - cbn. intros [= <-]. apply find_Some in E1 as (j & Hj & Hp & _).
    exists meta. split; [by eapply list_elem_of_lookup_2|]. split; [reflexivity|].
    destruct (negb _); [discriminate|]. by apply bool_decide_eq_true in Hp.
  - destruct (find (fun meta => bool_decide (type meta = Some t)) fieldMetas)
      as [meta|] eqn:E2; cbn; [|discriminate].
    intros [= <-]. apply find_Some in E2 as (j & Hj & Hp & _).
    exists meta. split; [by eapply list_elem_of_lookup_2|]. split; [reflexivity|].
    by apply bool_decide_eq_true in Hp.
Qed.

Lemma getFieldIdByName_None (toLowerCase : text -> text)
    (fieldMetas : list FieldMetaLike) (name : text) (t : Z) :
  getFieldIdByName toLowerCase fieldMetas name (Some t) = None ->
  forall meta, meta ∈ fieldMetas -> type meta <> Some t.
Proof.
  unfold getFieldIdByName.
  destruct (find _ fieldMetas) as [meta|] eqn:E1; [discriminate|].
  destruct (find (fun meta => bool_decide (type meta = Some t)) fieldMetas)
    as [meta|] eqn:E2; cbn; [discriminate|].
  intros _ meta Hm Ht. rewrite find_None in E2. specialize (E2 meta Hm).
  by rewrite bool_decide_eq_true_2 in E2.
Qed.

(** With an expected type, [getFieldIdByName] answers with the id of a field
    of that type, and it fails only when the table has no field of that
    type: a name that is not found falls back to the first field of the
    type. *)
Theorem getFieldIdByName_typed (toLowerCase : text -> text)
    (fieldMetas : list FieldMetaLike) (name : text) (t : Z) :
  match getFieldIdByName toLowerCase fieldMetas name (Some t) with
  | Some i => exists meta, meta ∈ fieldMetas /\ id meta = i /\ type meta = Some t
  | None => forall meta, meta ∈ fieldMetas -> type meta <> Some t
  end.
Proof.
  destruct (getFieldIdByName toLowerCase fieldMetas name (Some t)) as [i|] eqn:E.
  - by eapply getFieldIdByName_Some.
  - by eapply getFieldIdByName_None.
Qed.

(** A field found by its name wins: the answer is the first field whose
    normalised name is the normalised target and whose type is the expected
    one, when there is such a field. *)
Theorem getFieldIdByName_named (toLowerCase : text -> text)
    (fieldMetas : list FieldMetaLike) (target : text) (t : Z) (i : nat)
    (meta : FieldMetaLike) :
  fieldMetas !! i = Some meta ->
  normalizeFieldName toLowerCase (name meta) = normalizeFieldName toLowerCase target ->
  type meta = Some t ->
  (forall (j : nat) other, (j < i)%nat -> fieldMetas !! j = Some other ->
     normalizeFieldName toLowerCase (name other) <> normalizeFieldName toLowerCase target
     \/ type other <> Some t) ->
  getFieldIdByName toLowerCase fieldMetas target (Some t) = Some (id meta).
Proof.
  intros Hi Hname Htype Hbefore. unfold getFieldIdByName.
  destruct (find _ fieldMetas) as [found|] eqn:E.
  - cbn. f_equal. apply find_Some in E as (k & Hk & Hp & Hfirst).
    destruct (negb _) eqn:En; [discriminate|]. apply negb_false_iff in En.
    apply bool_decide_eq_true in En, Hp.
    destruct (Nat.lt_trichotomy k i) as [Hlt|[->|Hgt]].
    + destruct (Hbefore k found Hlt Hk); contradiction.
    + congruence.
    + specialize (Hfirst i meta Hgt Hi). cbn in Hfirst.
      rewrite (bool_decide_eq_true_2 _ Hname) in Hfirst. cbn in Hfirst.
      by rewrite (bool_decide_eq_true_2 _ Htype) in Hfirst.
  - exfalso. rewrite find_None in E.
    specialize (E meta (list_elem_of_lookup_2 _ _ _ Hi)). cbn in E.
    rewrite (bool_decide_eq_true_2 _ Hname) in E. cbn in E.
    by rewrite (bool_decide_eq_true_2 _ Htype) in E.
Qed.

Lemma entry_map {B C} (f : Key.t * B -> C) key (entries : list (Key.t * B)) :
  entry key ((fun e => (e.1, f e)) <$> entries)
  = (fun v => f (key, v)) <$> entry key entries.
Proof.
  induction entries as [|[k v] l IH]; [reflexivity|]. cbn.
  destruct (decide (k = key)) as [->|]; [reflexivity|exact IH].
Qed.

Lemma filter_none {A} (P : A -> Prop) `{!forall x, Decision (P x)} (l : list A) :
  Forall (fun x => ~ P x) l -> filter P l = [].
Proof.
  induction 1 as [|x l Hx _ IH]; [reflexivity|]. by rewrite filter_cons_False.
Qed.

Lemma FIELD_KEYS_types : Forall (fun e : Key.t * (text * Z) => e.2.2 = 2) FIELD_KEYS.
Proof. repeat constructor. Qed.

Lemma FIELD_KEYS_keys key :
  key <> Key.itemCode -> exists n, entry key FIELD_KEYS = Some (n, 2).
Proof. destruct key; intros H; try (eexists; reflexivity). congruence. Qed.

(** All fields of [FIELD_KEYS] are looked up with the same type, so the
    lookup of [buildFieldMap] is all or nothing on a table whose field ids
    are not empty: if the table has a field of type 2, every key gets a field
    id and nothing is reported missing, whatever the fields are called;
    otherwise no key gets one and all fifteen names are reported. *)
Theorem buildFieldMap_all_or_nothing (toLowerCase : text -> text)
    (fieldMetas : list FieldMetaLike) :
  (forall meta, meta ∈ fieldMetas -> id meta <> []) ->
  let (fieldIds, missingFields) := buildFieldMap toLowerCase fieldMetas in
  if decide (Exists (fun meta => type meta = Some 2) fieldMetas) then
    missingFields = [] /\ forall key, key <> Key.itemCode -> fieldIds key <> []
  else
    missingFields = (fun e : Key.t * (text * Z) => e.2.1) <$> FIELD_KEYS /\
    forall key, fieldIds key = [].
Proof.
  intros Hids. unfold buildFieldMap.
  assert (Hlookup : forall n,
    match getFieldIdByName toLowerCase fieldMetas n (Some 2) with
    | Some i => i <> [] /\ Exists (fun meta => type meta = Some 2) fieldMetas
    | None => ~ Exists (fun meta => type meta = Some 2) fieldMetas
    end).
  { intros n.
    destruct (getFieldIdByName toLowerCase fieldMetas n (Some 2)) as [i|] eqn:E.
    - apply getFieldIdByName_Some in E as (meta & Hin & <- & Ht).
      split; [by apply Hids|]. apply Exists_exists. by exists meta.
    - intros Hex. apply Exists_exists in Hex as (meta & Hin & Ht).
      by apply (getFieldIdByName_None _ _ _ _ E meta). }
  unfold fieldEntries. revert Hlookup.
  generalize (getFieldIdByName toLowerCase fieldMetas). intros g Hlookup.
  destruct (decide (Exists (fun meta => type meta = Some 2) fieldMetas)) as [Hex|Hex].
  - split.
    + rewrite filter_none; [reflexivity|].
      apply Forall_forall. intros e He.
      apply list_elem_of_fmap in He as ([k [n t]] & -> & Hk).
      pose proof FIELD_KEYS_types as Ht. rewrite Forall_forall in Ht.
      specialize (Ht _ Hk). cbn [fst snd] in *. subst t.
      specialize (Hlookup n). destruct (g n (Some 2)) as [i|]; [|contradiction].
      destruct Hlookup as [Hi _]. cbn [default].
      unfold unset. rewrite bool_decide_eq_false_2 by exact Hi. discriminate.
    + intros key Hkey.
      rewrite (entry_map (fun e => default [] (g e.2.1 (Some e.2.2)))).
      destruct (FIELD_KEYS_keys key Hkey) as (n & ->). cbn [fmap option_fmap option_map fst snd].
      specialize (Hlookup n). destruct (g n (Some 2)) as [i|]; [|contradiction].
      by destruct Hlookup.
  - assert (Hnone : forall n, g n (Some 2) = None).
    { intros n. specialize (Hlookup n).
      destruct (g n (Some 2)) as [i|]; [by destruct Hlookup|reflexivity]. }
    assert (E : (fun e : Key.t * (text * Z) => (e.1, default [] (g e.2.1 (Some e.2.2))))
                  <$> FIELD_KEYS
                = (fun e : Key.t * (text * Z) => (e.1, [])) <$> FIELD_KEYS).
    { apply list_fmap_ext. intros i [k [n t]] Hk.
      pose proof FIELD_KEYS_types as Ht. rewrite Forall_forall in Ht.
      specialize (Ht _ (list_elem_of_lookup_2 _ _ _ Hk)). cbn [fst snd] in *. subst t.
      by rewrite Hnone. }
    rewrite E. split; [vm_compute; reflexivity|].
    intros key. destruct key; vm_compute; reflexivity.
Qed.

(** *** The choice of the table *)

Section Candidates.

Context {T V : Type}.

Implicit Types a b c : TableCandidate T V.

Lemma compare_noWorse a b : compareCandidates a b <= 0 <-> noWorse a b.
Proof. unfold compareCandidates, noWorse. destruct (decide _); lia. Qed.

Lemma compare_better a b : compareCandidates a b < 0 <-> better a b.
Proof. unfold compareCandidates, better. destruct (decide _); lia. Qed.

Lemma head_insertSorted {A} (compareFn : A -> A -> Z) x (l : list A) :
  head (insertSorted compareFn x l)
  = Some match head l with
         | Some h => if compareFn x h <=? 0 then x else h
         | None => x
         end.
Proof. destruct l as [|y l]; cbn; [reflexivity|]. by destruct (compareFn x y <=? 0). Qed.

Lemma head_sort_first (cs : list (TableCandidate T V)) :
  match head (sort compareCandidates cs) with
  | Some c =>
      exists i : nat, cs !! i = Some c /\
        (forall c', c' ∈ cs -> noWorse c c') /\
        (forall (j : nat) c', (j < i)%nat -> cs !! j = Some c' -> better c c')
  | None => cs = []
  end.
Proof.
  induction cs as [|x cs IH]; [reflexivity|].
  cbn [sort foldr]. fold (sort compareCandidates cs). rewrite head_insertSorted.
  destruct (head (sort compareCandidates cs)) as [h|].
  - destruct IH as (i & Hi & Hmin & Hfirst).
    destruct (compareCandidates x h <=? 0) eqn:E.
    + apply Z.leb_le, compare_noWorse in E.
      exists 0%nat. split; [reflexivity|]. split; [|intros; lia].
      intros c' Hc'. apply elem_of_cons in Hc' as [->|Hc'].
      * unfold noWorse. lia.
      * specialize (Hmin c' Hc'). unfold noWorse in *. lia.
    + apply Z.leb_gt in E.
      assert (Hb : better h x).
      { apply compare_better. unfold compareCandidates in *.
        repeat destruct (decide _); lia. }
      exists (S i). split; [exact Hi|]. split.
      * intros c' Hc'. apply elem_of_cons in Hc' as [->|Hc']; [|by apply Hmin].
        unfold better, noWorse in *. lia.
      * intros [|j] c' Hj Hc'; cbn in Hc'.
        -- by injection Hc' as <-.
        -- apply (Hfirst j); [lia|exact Hc'].
  - subst cs. exists 0%nat. split; [reflexivity|]. split; [|intros; lia].
    intros c' Hc'. apply list_elem_of_singleton in Hc' as ->. unfold noWorse. lia.
Qed.

(** [selectBestCandidate] gives none exactly for no candidates, and else the
    first candidate that no other beats: it has the fewest missing fields
    and, among those with as few, the most records; every candidate listed
    before it is strictly worse. *)
Theorem selectBestCandidate_first (candidates : list (TableCandidate T V)) :
  match selectBestCandidate candidates with
  | Some c =>
      exists i : nat, candidates !! i = Some c /\
        (forall c', c' ∈ candidates -> noWorse c c') /\
        (forall (j : nat) c', (j < i)%nat -> candidates !! j = Some c' -> better c c')
  | None => candidates = []
  end.
Proof.
  unfold selectBestCandidate.
  destruct (decide (length candidates = 0%nat)) as [H|H]; [by apply nil_length_inv|].
  pose proof (head_sort_first candidates) as Hs.
  destruct (head (sort compareCandidates candidates)); [exact Hs|].
  by subst.
Qed.

End Candidates.

End FieldsFacts.

(** ** Branches of the loop body that are never taken *)

Module DeadBranches.

Import Cascade CascadeSpec CascadeFacts CascadeMoreSpec CascadeMore DeadBranchesSpec.
#[local] Open Scope cascade_scope.

Section Body.

Context (host : Host) (fieldIds : FieldIds) (options : CalculationOptions).

Lemma findPositive_last a b x : isPositive x = true -> findPositive [a; b; x] <> None.
Proof.
  intros Hx H. unfold findPositive in H.
  destruct (list_find (fun v => isPositive v = true) [a; b; x]) as [[i v]|] eqn:E.
  - apply list_find_Some in E as (_ & Hv & _). by destruct v.
  - apply list_find_None in E. rewrite Forall_forall in E.
    apply (E x); [set_solver|exact Hx].
Qed.

Lemma dimensions_checked w d h :
  negb (isPositive w) || negb (isPositive d) || negb (isPositive h) = false ->
  isPositive w = true /\ isPositive d = true /\ isPositive h = true.
Proof. destruct (isPositive w), (isPositive d), (isPositive h); cbn; auto; discriminate. Qed.

Lemma revised_pushIfSet_plain key recordId v :
  emits notMissingDimensions (CalculatorRevised.pushIfSet host fieldIds key recordId v).
Proof. unfold CalculatorRevised.pushIfSet. repeat first [emits_step | apply emits_issue; exact I]. Qed.

Lemma revised_clearKeys_plain keys recordId :
  emits notMissingDimensions (CalculatorRevised.clearKeys host fieldIds keys recordId).
Proof.
  induction keys as [|key keys IH]; cbn [CalculatorRevised.clearKeys].
  - apply emits_ret.
  - apply emits_bind; [apply revised_pushIfSet_plain|intros].
    apply emits_bind; [exact IH|intros]. apply emits_ret.
Qed.

Ltac revised_plain :=
  repeat first
    [ apply revised_pushIfSet_plain | apply revised_clearKeys_plain
    | emits_step | apply emits_issue; exact I ].

Lemma revised_masterLevel_plain recordId l innerQty masterQty w d h ew ed eh inner :
  isPositive w = true -> isPositive d = true -> isPositive h = true ->
  emits notMissingDimensions
    (CalculatorRevised.masterLevel host fieldIds options recordId l innerQty masterQty
       w d h ew ed eh inner).
Proof.
  intros Hw Hd Hh.
  unfold CalculatorRevised.masterLevel, CalculatorRevised.pushMasterDimensions, onLog.
  destruct (_ || _); [revised_plain|].
  destruct (0 <? innerQty)%float; [|revised_plain].
  destruct (negb _); [revised_plain|].
  destruct (findPositive [_; ew; w]) eqn:E1; [|by apply findPositive_last in E1].
  destruct (findPositive [_; ed; d]) eqn:E2; [|by apply findPositive_last in E2].
  destruct (findPositive [_; eh; h]) eqn:E3; [|by apply findPositive_last in E3].
  revised_plain.
Qed.

Lemma revised_processRecord_plain index recordId :
  emits notMissingDimensions
    (CalculatorRevised.processRecord host fieldIds options index recordId).
Proof.
  unfold CalculatorRevised.processRecord.
  apply emits_bind; [apply emits_getRecord|intros fields].
  apply emits_bind; [apply emits_setLabel|intros _].
  destruct (_ || _ || _) eqn:Edims; [unfold onLog; revised_plain|].
  apply dimensions_checked in Edims as (Hw & Hd & Hh).
  destruct (_ && _); [unfold onLog; revised_plain|].
  destruct (_ && _); [unfold onLog; revised_plain|].
  apply emits_bind; [|intros inner].
  { unfold CalculatorRevised.innerLevel, CalculatorRevised.clearInnerValues, onLog.
    revised_plain. }
  apply emits_bind; [unfold CalculatorRevised.masterGate, onLog; revised_plain|intros _].
  apply emits_bind; [by apply revised_masterLevel_plain|intros [arrangement updates]].
  unfold CalculatorRevised.netWeightStep, CalculatorRevised.finish, onLog.
  revised_plain.
Qed.

Lemma calculator_masterLevel_plain l innerQty masterQty w d h weight ew ed eh elb inner lb :
  isPositive w = true -> isPositive d = true -> isPositive h = true ->
  emits notMissingDimensions
    (Calculator.masterLevel host options l innerQty masterQty w d h weight
       ew ed eh elb inner lb).
Proof.
  intros Hw Hd Hh. unfold Calculator.masterLevel, onLog. rewrite Hw, Hd, Hh. cbn [negb orb].
  destruct (0 <? innerQty)%float; [|revised_plain].
  destruct (_ || _); [revised_plain|].
  destruct (findPositive [_; ew; w]) eqn:E1; [|by apply findPositive_last in E1].
  destruct (findPositive [_; ed; d]) eqn:E2; [|by apply findPositive_last in E2].
  destruct (findPositive [_; eh; h]) eqn:E3; [|by apply findPositive_last in E3].
  revised_plain.
Qed.

Lemma calculator_processRecord_plain index recordId :
  emits notMissingDimensions
    (Calculator.processRecord host fieldIds options index recordId).
Proof.
  unfold Calculator.processRecord.
  apply emits_bind; [apply emits_getRecord|intros fields].
  destruct (_ || _ || _) eqn:Edims; [unfold onLog; revised_plain|].
  apply dimensions_checked in Edims as (Hw & Hd & Hh).
  apply emits_bind; [|intros [inner lb]].
  { unfold Calculator.innerLevel, onLog. revised_plain. }
  apply emits_bind; [unfold Calculator.masterGate, onLog; revised_plain|intros _].
  apply emits_bind; [by apply calculator_masterLevel_plain|intros [arrangement kg]].
  unfold Calculator.writeMaster, onLog. revised_plain.
Qed.

(** The lines about missing base dimensions are never logged, in either
    revision: the loop body has checked the unit dimensions before, and they
    end the fallback chain of every axis. *)
Theorem missing_dimensions_never_logged (selected visible : list (option text))
    (w : host_state host) :
  Forall notMissingDimensions
    (trace (CalculatorRevised.runCalculation host fieldIds options selected visible w)) /\
  Forall notMissingDimensions
    (trace (Calculator.runCalculation host fieldIds options selected visible w)).
Proof.
  split.
  - unfold CalculatorRevised.runCalculation.
    destruct (decide _); [by repeat constructor|].
    cbn [snd onLog emit trace]. apply Forall_app. split; [|by repeat constructor].
    apply loop_target; [|by repeat constructor].
    intros s [index recordId] _ Hs. unfold CalculatorRevised.iteration.
    apply catch_target; [|exact I|intros; exact I|exact Hs].
    apply emits_bind; [apply emits_setLabel|intros]. apply revised_processRecord_plain.
  - unfold Calculator.runCalculation.
    destruct (decide _); [by repeat constructor|].
    cbn [snd onLog emit trace]. apply Forall_app. split; [|by repeat constructor].
    apply loop_target; [|by repeat constructor].
    intros s [index recordId] _ Hs. unfold Calculator.iteration.
    apply catch_target; [|exact I|intros; exact I|exact Hs].
    apply emits_bind; [apply emits_setLabel|intros]. apply calculator_processRecord_plain.
Qed.

End Body.

End DeadBranches.

(** ** Buffer conversion *)

Module BufferFacts.

Import Numbers FloatOrder FloatSign FloatSignFacts.

Lemma binary_round_aux_not_nan s mx ex lx :
  0 <= mx -> binary_round_aux prec emax s mx ex lx <> S754_nan.
Proof.
  intros H. unfold binary_round_aux.
  pose proof (shr_fexp_nonneg mx ex lx H) as H1.
  destruct (shr_fexp prec emax mx ex lx) as [mrs' e']. simpl in H1.
  pose proof (shr_fexp_nonneg _ e' loc_Exact
                (round_nearest_even_nonneg _ (loc_of_shr_record mrs') H1)) as H2.
  destruct (shr_fexp prec emax _ e' loc_Exact) as [mrs'' e'']. simpl in H2.
  destruct (shr_m mrs'') as [|m|m]; simpl; try discriminate; try lia.
  destruct (e'' <=? emax - prec); discriminate.
Qed.

Lemma finite_shape (v : float) :
  is_finite v = true ->
  match Prim2SF v with S754_zero _ | S754_finite _ _ _ => True | _ => False end.
Proof.
  unfold is_finite, is_nan, is_infinity. rewrite !FloatAxioms.eqb_spec, abs_spec.
  change (Prim2SF infinity) with (S754_infinity false).
  destruct (Prim2SF v) as [s|s| |s m e]; simpl; try discriminate; try tauto.
  destruct s; cbn; discriminate.
Qed.

(** [convertBufferToInches] always hands out a number: 0 for a value that is
    not finite, the value itself for inches, and for centimetres a quotient
    that is not NaN. *)
Theorem convertBufferToInches_number (value : float) (unit : BufferUnit) :
  ~ isNaN (convertBufferToInches value unit) /\
  (JS.Number_isFinite value = false -> convertBufferToInches value unit = 0%float) /\
  (JS.Number_isFinite value = true -> convertBufferToInches value inch = value).
Proof.
  unfold convertBufferToInches, JS.Number_isFinite, isNaN.
  destruct (is_finite value) eqn:E; cbn [negb].
  - split; [|split; [discriminate|reflexivity]].
    pose proof (finite_shape value E) as Hv. destruct unit.
    + intros H. by rewrite H in Hv.
    + rewrite div_spec. remember (Prim2SF 2.54) as y eqn:Hy.
      vm_compute in Hy. subst y.
      destruct (Prim2SF value) as [s|s| |s m e]; try contradiction; [discriminate|].
      unfold SF64div, SFdiv, SFdiv_core_binary.
      set (sh := _ - _ - _).
      set (m' := match sh with Z0 => _ | Z.pos _ => _ | Z.neg _ => _ end).
      assert (Hm : 0 <= m').
      { subst m'. destruct sh; try lia. apply Z.shiftl_nonneg. lia. }
      match goal with |- context [Z.div_eucl m' (Z.pos ?d)] =>
        pose proof (Z.div_pos m' (Z.pos d) Hm ltac:(lia)) as Hq;
        unfold Z.div in Hq; destruct (Z.div_eucl m' (Z.pos d)) as [q r] end.
      simpl in Hq.
      by apply binary_round_aux_not_nan.
  - split; [discriminate|]. split; [reflexivity|discriminate].
Qed.

End BufferFacts.

(** ** The properties at sample inputs *)

Module Witnesses.

Import Arrangement ArrangementSpec EnumerationSpec ArrangementMore Cascade CascadeSamples CascadeSpec
  CascadeFacts CascadeMoreSpec CascadeMore Fields FieldsFacts MoreSamples.

Lemma result_well_formed_witness :
  evaluate dims211 0%float (counts row8) = Some row8 /\
  (JS.Number_isFinite (width row8) && (0 <? width row8)%float
   && JS.Number_isFinite (depth row8) && (0 <? depth row8)%float
   && JS.Number_isFinite (height row8) && (0 <? height row8)%float = true) /\
  cubeFeet row8 = (width row8 * depth row8 * height row8 / 1728)%float /\
  ~ FloatOrder.isNaN (cubeFeet row8).
Proof. apply (result_well_formed 8 dims211 0%float row8). vm_compute. reflexivity. Defined.

Lemma master_level_uses_inner_carton_witness :
  let host := tableHost (oneRow flatRecord) in
  let l := {| label_number := 1; label_display := rec1 |} in
  CalculatorRevised.masterLevel host allFields (sampleOptions Box 0) rec1 l 8 16
    (Some 2%float) (Some 1%float) (Some 1%float) (Some 5%float) None None (Some row8)
  = CalculatorRevised.masterLevel host allFields (sampleOptions Box 0) rec1 l 8 16
      (Some (width row8)) (Some (depth row8)) (Some (height row8))
      None None None None /\
  Calculator.masterLevel host (sampleOptions Box 0) l 8 16
    (Some 2%float) (Some 1%float) (Some 1%float) (Some 50%float)
    (Some 5%float) None None None (Some row8) None
  = Calculator.masterLevel host (sampleOptions Box 0) l 8 16
      (Some (width row8)) (Some (depth row8)) (Some (height row8)) (Some 50%float)
      None None None None None None.
Proof.
  apply (master_level_uses_inner_carton (tableHost (oneRow flatRecord)) allFields
           (sampleOptions Box 0) 8 dims211 0%float row8);
    vm_compute; reflexivity.
Defined.

Lemma incomplete_dimensions_skipped_witness :
  CalculatorRevised.processRecord (tableHost (oneRow flatRecord)) allFields
    (sampleOptions Box 0) 0 rec1 (start (oneRow flatRecord))
  = (Continue,
     Build_State (tableHost (oneRow flatRecord)) tt
       ([] ++ [Log (IncompleteDimensions
                 (CalculatorRevised.recordLabel (tableHost (oneRow flatRecord)) allFields
                    flatRecord 0 rec1))])
       1 (CalculatorRevised.recordLabel (tableHost (oneRow flatRecord)) allFields
            flatRecord 0 rec1)) /\
  Calculator.processRecord (tableHost (oneRow flatRecord)) allFields
    (sampleOptions Box 0) 0 rec1 (start (oneRow flatRecord))
  = (Continue,
     Build_State (tableHost (oneRow flatRecord)) tt
       ([] ++ [Log (IncompleteDimensions (Calculator.formatRecordLabel rec1 0))])
       1 {| label_number := 0; label_display := [] |}).
Proof.
  apply (incomplete_dimensions_skipped (tableHost (oneRow flatRecord)) allFields
           (sampleOptions Box 0) 0 rec1 (start (oneRow flatRecord)) flatRecord tt);
    vm_compute; reflexivity.
Defined.

Lemma no_inner_level_clears_witness :
  let r := CalculatorRevised.innerLevel (tableHost ∅) allFields (sampleOptions Box 0)
             rec1 label1 0%float (Some 1%float) (Some 1%float) (Some 1%float) None None
             (start ∅) in
  trace r.2 = [] ++ Log (NoInnerCarton label1)
                :: clears allFields rec1 CalculatorRevised.INNER_FIELD_KEYS /\
  processed r.2 = 0%nat /\
  (r.1 = Next None \/ exists e, r.1 = Throw e).
Proof.
  apply (no_inner_level_clears (tableHost ∅) allFields (sampleOptions Box 0)
           rec1 label1 0%float (Some 1%float) (Some 1%float) (Some 1%float) None None
           (start ∅)).
  vm_compute. reflexivity.
Defined.

Lemma revised_net_weight_witness :
  let host := tableHost (oneRow looseRecord) in
  let s' := (CalculatorRevised.processRecord host allFields (sampleOptions Box 0) 0 rec1
               (start (oneRow looseRecord))).2 in
  let weight := fetchValue host allFields looseRecord Key.itemWeight in
  let masterQty := default 0%float (fetchValue host allFields looseRecord Key.masterQty) in
  let l := CalculatorRevised.recordLabel host allFields looseRecord 0 rec1 in
  exists new, trace s' = trace (start (oneRow looseRecord)) ++ new /\
    if isPositive weight then
      unset (allFields Key.netWeight) = false ->
      SetCellValue (allFields Key.netWeight) rec1
        (Some (round (Calculator.asNumber weight / 1000 * masterQty) 3)) ∈ new
    else
      Log (NetWeightCleared l) ∈ new /\
      (unset (allFields Key.netWeight) = false ->
       SetCellValue (allFields Key.netWeight) rec1 None ∈ new).
Proof.
  apply (revised_net_weight (tableHost (oneRow looseRecord)) allFields (sampleOptions Box 0)
           0 rec1 (start (oneRow looseRecord)) _ looseRecord tt);
    vm_compute; reflexivity.
Defined.

Lemma revised_type_mismatch_witness :
  let host := tableHost (oneRow brokenRecord) in
  let l := CalculatorRevised.recordLabel host allFields brokenRecord 0 rec1 in
  exists line, (line = InnerQtyNotInteger l \/ line = MasterQtyNotInteger l) /\
    CalculatorRevised.processRecord host allFields (sampleOptions Box 0) 0 rec1
      (start (oneRow brokenRecord))
    = (Continue,
       Build_State host tt (trace (start (oneRow brokenRecord)) ++ [Log line])
         (S (processed (start (oneRow brokenRecord)))) l).
Proof.
  apply (revised_type_mismatch (tableHost (oneRow brokenRecord)) allFields
           (sampleOptions Box 0) 0 rec1 (start (oneRow brokenRecord)) brokenRecord tt);
    try (vm_compute; reflexivity).
  left. exists 2.5%float. split; vm_compute; reflexivity.
Defined.

Lemma getFieldIdByName_named_witness :
  getFieldIdByName asciiLower sampleMetas (utf16 "Inner Qty") (Some 2) = Some (utf16 "fld2").
Proof.
  apply (getFieldIdByName_named asciiLower sampleMetas (utf16 "Inner Qty") 2 2
           {| id := utf16 "fld2"; name := utf16 "  inner   qty "; type := Some 2 |});
    try (vm_compute; reflexivity).
  intros [|[|j]] other Hj Hother; [| |lia]; injection Hother as <-; left;
    vm_compute; discriminate.
Defined.

Lemma buildFieldMap_all_or_nothing_witness :
  let (fieldIds, missingFields) := buildFieldMap asciiLower sampleMetas in
  if decide (Exists (fun meta => type meta = Some 2) sampleMetas) then
    missingFields = [] /\ forall key, key <> Key.itemCode -> fieldIds key <> []
  else
    missingFields = (fun e : Key.t * (text * Z) => e.2.1) <$> FIELD_KEYS /\
    forall key, fieldIds key = [].
Proof.
  apply (buildFieldMap_all_or_nothing asciiLower sampleMetas).
  intros meta Hm.
  repeat (apply elem_of_cons in Hm as [->|Hm]); try (vm_compute; discriminate).
  by apply elem_of_nil in Hm.
Defined.

End Witnesses.
